(** * customize_icon_order.py: reordering the [scanfor] and [showtools]
      directives of a refind.conf file

    A shallow embedding of [src/customize_icon_order.py] and the proofs of
    its specification.

    Modelling conventions.
    - A Python [str] is a list of characters.  The characters of the model
      are the code points U+0000..U+00FF, carried by [ascii]; on that range
      the classifications used by the program ([str.isspace], the regular
      expression classes [\s], [\w] and [\b], case-insensitive matching of
      the ASCII letters of the two keywords, the digits accepted by [int])
      are given exactly as CPython has them.  Code points above U+00FF are
      outside the model.
    - [int] has CPython's limit on the number of digits of one literal, at
      its default of 4300, which the program does not change.
    - Console and file system are an explicit [world] threaded through a
      small state-and-exception monad.  A file is there with its text, the
      process being allowed to read and to write it, or is not there: the
      other failures of [open] (permissions, directories, bytes that do
      not decode) are outside the model.  The newline translation of text
      mode is modelled, for a host whose line separator is the newline.
    - [main] only reads the path from the command line and calls
      [process_file]; it has no counterpart here. *)

From Stdlib Require Import List Bool Arith ZArith Lia Ascii String.
From Stdlib Require Import Permutation Sorted DecimalString DecimalNat.
Import ListNotations.

Set Implicit Arguments.

Open Scope string_scope.
Open Scope list_scope.

(** ** Characters and strings *)

Definition str := list ascii.

Definition lit (s : string) : str := list_ascii_of_string s.
Coercion lit : string >-> str.

Definition code (c : ascii) : N := N_of_ascii c.

Definition chr_eqb (a b : ascii) : bool := Ascii.eqb a b.

Fixpoint str_eqb (a b : str) : bool :=
  match a, b with
  | [], [] => true
  | x :: a', y :: b' => chr_eqb x y && str_eqb a' b'
  | _, _ => false
  end.

Definition in_range (lo hi : N) (c : ascii) : bool :=
  ((lo <=? code c) && (code c <=? hi))%N.

(** [str.isspace] of one character, which is also the class [\s] of [re]
    on [str] patterns, and what [str.strip()] and [str.split()] remove. *)
Definition is_space (c : ascii) : bool :=
  in_range 9 13 c || in_range 28 32 c || in_range 133 133 c
  || in_range 160 160 c.

(** [str.isalnum] of one character. *)
Definition is_alnum (c : ascii) : bool :=
  in_range 48 57 c || in_range 65 90 c || in_range 97 122 c
  || in_range 170 170 c || in_range 178 179 c || in_range 181 181 c
  || in_range 185 186 c || in_range 188 190 c || in_range 192 214 c
  || in_range 216 246 c || in_range 248 255 c.

(** The class [\w] of [re] on [str] patterns. *)
Definition is_word (c : ascii) : bool :=
  is_alnum c || chr_eqb c "_".

(** Lower-casing of the ASCII capital letters. *)
Definition ascii_lower (c : ascii) : ascii :=
  if in_range 65 90 c then ascii_of_N (code c + 32) else c.

Definition lower (s : str) : str := map ascii_lower s.

(** ** The [str] methods used by the program *)

Module Py.

Fixpoint drop_while (p : ascii -> bool) (s : str) : str :=
  match s with
  | [] => []
  | c :: s' => if p c then drop_while p s' else s
  end.

Fixpoint take_while (p : ascii -> bool) (s : str) : str :=
  match s with
  | [] => []
  | c :: s' => if p c then c :: take_while p s' else []
  end.

(** [s.lstrip(chars)] for a one-character [chars]. *)
Definition lstrip_chr (c : ascii) (s : str) : str :=
  drop_while (chr_eqb c) s.

(** [s.lstrip()], [s.rstrip()] and [s.strip()]. *)
Definition lstrip (s : str) : str := drop_while is_space s.
Definition rstrip (s : str) : str := rev (drop_while is_space (rev s)).
Definition strip (s : str) : str := rstrip (lstrip s).

(** [s.split(sep)] for a one-character separator: never empty. *)
Fixpoint split_chr (sep : ascii) (s : str) : list str :=
  match s with
  | [] => [[]]
  | c :: s' =>
      if chr_eqb c sep then [] :: split_chr sep s'
      else match split_chr sep s' with
           | piece :: rest => (c :: piece) :: rest
           | [] => [[c]]
           end
  end.

(** [s.split(sep, 1)[0]]: the text before the first separator. *)
Definition split1_head (sep : ascii) (s : str) : str :=
  take_while (fun c => negb (chr_eqb c sep)) s.

(** [s.split(None, 1)]: leading whitespace is skipped, the first word is
    cut off, the whitespace after it is skipped and what is left, if
    anything, is the second part, with its trailing whitespace. *)
Definition split_ws1 (s : str) : list str :=
  match lstrip s with
  | [] => []
  | c :: s' =>
      let word := take_while (fun x => negb (is_space x)) (c :: s') in
      match lstrip (drop_while (fun x => negb (is_space x)) (c :: s')) with
      | [] => [word]
      | rest => [word; rest]
      end
  end.

(** [s.split()]: the maximal runs of non-whitespace characters.  [cur]
    is the word being read, most recent character first. *)
Fixpoint split_ws_from (cur : str) (s : str) : list str :=
  match s with
  | [] => match cur with [] => [] | _ => [rev cur] end
  | c :: s' =>
      if is_space c
      then match cur with
           | [] => split_ws_from [] s'
           | _ => rev cur :: split_ws_from [] s'
           end
      else split_ws_from (c :: cur) s'
  end.

Definition split_ws (s : str) : list str := split_ws_from [] s.

(** [sep.join(items)]. *)
Fixpoint join (sep : str) (items : list str) : str :=
  match items with
  | [] => []
  | [x] => x
  | x :: rest => x ++ sep ++ join sep rest
  end.

(** The whitespace [int] skips around a literal: the ASCII white space
    of C, and the non-ASCII white space, which it first turns into a
    space character. *)
Definition is_int_space (c : ascii) : bool :=
  in_range 9 13 c || in_range 32 32 c || in_range 133 133 c
  || in_range 160 160 c.

Definition digit_val (c : ascii) : option Z :=
  if in_range 48 57 c then Some (Z.of_N (code c) - 48)%Z else None.

(** The digits of a decimal literal, single underscores allowed between
    two digits.  [after_digit] tells that the previous character was a
    digit. *)
Fixpoint int_digits (acc : Z) (after_digit : bool) (s : str) : option Z :=
  match s with
  | [] => if after_digit then Some acc else None
  | c :: s' =>
      match digit_val c with
      | Some d => int_digits (10 * acc + d)%Z true s'
      | None =>
          if chr_eqb c "_" && after_digit then int_digits acc false s'
          else None
      end
  end.

(** [sys.get_int_max_str_digits()], at its default. *)
Definition int_max_str_digits : nat := 4300.

(** The number of digits of a literal: its underscores do not count, its
    leading zeros do. *)
Definition digit_count (s : str) : nat :=
  List.length (filter (in_range 48 57) s).

(** A literal without its sign: [None] when the text is no literal, and
    when it has more digits than [int] converts. *)
Definition int_literal (s : str) : option Z :=
  match int_digits 0 false s with
  | Some v => if (int_max_str_digits <? digit_count s)%nat then None
              else Some v
  | None => None
  end.

(** [int(s)]: [None] stands for [ValueError]. *)
Definition int (s : str) : option Z :=
  let body := rev (drop_while is_int_space (rev (drop_while is_int_space s))) in
  match body with
  | c :: s' =>
      if chr_eqb c "-" then option_map Z.opp (int_literal s')
      else if chr_eqb c "+" then int_literal s'
      else int_literal body
  | [] => None
  end.

(** [sorted] on integers. *)
Fixpoint insert (x : Z) (l : list Z) : list Z :=
  match l with
  | [] => [x]
  | y :: l' => if (x <=? y)%Z then x :: l else y :: insert x l'
  end.

Fixpoint sorted (l : list Z) : list Z :=
  match l with
  | [] => []
  | x :: l' => insert x (sorted l')
  end.

(** [list(range(n))]. *)
Definition range (n : nat) : list Z := map Z.of_nat (seq 0 n).

Fixpoint list_Z_eqb (a b : list Z) : bool :=
  match a, b with
  | [], [] => true
  | x :: a', y :: b' => (x =? y)%Z && list_Z_eqb a' b'
  | _, _ => false
  end.

(** [str(n)] of a natural number. *)
Definition str_of_nat (n : nat) : str :=
  lit (NilEmpty.string_of_uint (Nat.to_uint n)).

End Py.

(** ** Console, file system and exceptions *)

Record world := World {
  stdin : list str;           (* the lines still to be read, without newline *)
  stdout : list str;          (* what was written, one entry per write *)
  files : str -> option str   (* the text of each file, by path *)
}.

Inductive exn := EOFError | IndexError | FileNotFoundError.

Inductive result (A : Type) :=
| Ok (a : A) (w : world)
| Raise (e : exn) (w : world).

Arguments Raise {A} e w.

Definition IO (A : Type) := world -> result A.

Definition ret {A} (a : A) : IO A := fun w => Ok a w.

Definition bind {A B} (m : IO A) (k : A -> IO B) : IO B :=
  fun w => match m w with
           | Ok a w' => k a w'
           | Raise e w' => Raise e w'
           end.

Definition raise {A} (e : exn) : IO A := fun w => Raise e w.

Declare Scope io_scope.
Delimit Scope io_scope with io.
Notation "x <- m ;; k" := (bind m (fun x => k))
  (at level 61, m at next level, right associativity) : io_scope.
Notation "m ;; k" := (bind m (fun _ => k))
  (at level 61, right associativity) : io_scope.
Open Scope io_scope.

Definition LF : ascii := "010"%char.
Definition CR : ascii := "013"%char.

(** [print(s)]. *)
Definition print (s : str) : IO unit :=
  fun w => Ok tt (World (stdin w) (stdout w ++ [s ++ [LF]]) (files w)).

(** [input(prompt)]: the prompt is written, one line is read. *)
Definition input (prompt : str) : IO str :=
  fun w =>
    let w' := World (stdin w) (stdout w ++ [prompt]) (files w) in
    match stdin w with
    | [] => Raise EOFError w'
    | l :: rest => Ok l (World rest (stdout w') (files w))
    end.

(** [items[i]] for a Python list and an integer [i]. *)
Definition getitem {A} (items : list A) (i : Z) : IO A :=
  let n := Z.of_nat (List.length items) in
  let j := if (i <? 0)%Z then (i + n)%Z else i in
  if ((0 <=? j) && (j <? n))%Z
  then match nth_error items (Z.to_nat j) with
       | Some x => ret x
       | None => raise IndexError
       end
  else raise IndexError.

Fixpoint map_io {A B} (f : A -> IO B) (l : list A) : IO (list B) :=
  match l with
  | [] => ret []
  | x :: l' => y <- f x ;; ys <- map_io f l' ;; ret (y :: ys)
  end.

(** Text-mode reading: [\r\n] and [\r] become [\n]. *)
Fixpoint universal_newlines (s : str) : str :=
  match s with
  | [] => []
  | c :: s' =>
      if chr_eqb c CR
      then LF :: match s' with
                 | d :: s'' => if chr_eqb d LF then universal_newlines s''
                               else universal_newlines s'
                 | [] => []
                 end
      else c :: universal_newlines s'
  end.

(** The lines of a text, each with its newline.  [cur] is the line being
    read, most recent character first. *)
Fixpoint lines_from (cur : str) (s : str) : list str :=
  match s with
  | [] => match cur with [] => [] | _ => [rev cur] end
  | c :: s' =>
      if chr_eqb c LF then rev (c :: cur) :: lines_from [] s'
      else lines_from (c :: cur) s'
  end.

Definition path_eqb : str -> str -> bool := str_eqb.

(** [open(path, 'r', encoding='utf-8')] followed by [f.readlines()].  A
    path without a file raises [FileNotFoundError]; a file that cannot be
    read or decoded has no place in [world]. *)
Definition readlines (path : str) : IO (list str) :=
  fun w => match files w path with
           | Some text => Ok (lines_from [] (universal_newlines text)) w
           | None => Raise FileNotFoundError w
           end.

(** [open(path, 'w', encoding='utf-8')] followed by [f.writelines(lines)],
    on a host whose line separator is [\n]. *)
Definition writelines (path : str) (lines : list str) : IO unit :=
  fun w => Ok tt (World (stdin w) (stdout w)
                   (fun p => if path_eqb p path then Some (List.concat lines)
                             else files w p)).

(** ** The program *)

(** [parse_directive(line)] *)
Definition parse_directive (line : str) : list str :=
  let line := Py.split1_head "#" line in
  let parts := Py.split_ws1 line in
  match parts with
  | [_; rest] =>
      map Py.strip
        (filter (fun item => negb (str_eqb (Py.strip item) []))
                (Py.split_chr "," rest))
  | _ => []
  end.

(** [format_directive(name, items)] *)
Definition format_directive (name : str) (items : list str) : str :=
  name ++ lit " " ++ Py.join (lit ",") items ++ [LF].

Definition prompt : str :=
  lit "Enter new order as space-separated numbers (e.g. '3 1 2') or press "
  ++ lit "Enter to keep current order: ".

Definition invalid_message : str := "Invalid input; keeping existing order.".

(** The loop [for i, item in enumerate(items, 1): print(f"  {i}. {item}")]. *)
Fixpoint print_listing (i : nat) (items : list str) : IO unit :=
  match items with
  | [] => ret tt
  | item :: rest =>
      print (lit "  " ++ Py.str_of_nat i ++ lit ". " ++ item) ;;
      print_listing (S i) rest
  end.

(** [[int(x) - 1 for x in tokens]]; [None] is the [ValueError] of [int]. *)
Fixpoint parse_indices (tokens : list str) : option (list Z) :=
  match tokens with
  | [] => Some []
  | x :: rest =>
      match Py.int x with
      | None => None
      | Some v => option_map (cons (v - 1)%Z) (parse_indices rest)
      end
  end.

(** The body of the [try]: [None] when [ValueError] was raised. *)
Definition try_indices (items : list str) (response : str)
  : option (list Z) :=
  match parse_indices (Py.split_ws response) with
  | None => None
  | Some indices =>
      if Py.list_Z_eqb (Py.sorted indices) (Py.range (List.length items))
      then Some indices else None
  end.

(** [reorder(items)] *)
Definition reorder (items : list str) : IO (list str) :=
  print "Current order:" ;;
  print_listing 1 items ;;
  raw <- input prompt ;;
  let response := Py.strip raw in
  match response with
  | [] => ret items
  | _ :: _ =>
      match try_indices items response with
      | None => print invalid_message ;; ret items
      | Some indices => map_io (getitem items) indices
      end
  end.

(** The text matched by [pat] at the start of [s], letter case ignored,
    and what follows it.  [pat] is in lower case. *)
Fixpoint match_ignorecase (pat s : str) : option (str * str) :=
  match pat, s with
  | [], _ => Some ([], s)
  | p :: pat', c :: s' =>
      if chr_eqb (ascii_lower c) p
      then match match_ignorecase pat' s' with
           | Some (m, r) => Some (c :: m, r)
           | None => None
           end
      else None
  | _ :: _, [] => None
  end.

(** The assertion [\b] between the text [before] and the text [after]. *)
Definition word_boundary (before after : str) : bool :=
  xorb (match rev before with c :: _ => is_word c | [] => false end)
       (match after with c :: _ => is_word c | [] => false end).

Definition keywords : list str := [lit "scanfor"; lit "showtools"].

(** [directive_pattern.match(s)] for
    [re.compile(r'^(scanfor|showtools)\b', re.IGNORECASE)]: the value is
    [match.group(1)]. *)
Fixpoint match_alternatives (alts : list str) (s : str) : option str :=
  match alts with
  | [] => None
  | kw :: alts' =>
      match match_ignorecase kw s with
      | Some (m, r) =>
          if word_boundary m r then Some m else match_alternatives alts' s
      | None => match_alternatives alts' s
      end
  end.

Definition directive_pattern_match (s : str) : option str :=
  match_alternatives keywords s.

(** [line.lstrip('#').lstrip()] *)
Definition uncomment (line : str) : str :=
  Py.lstrip (Py.lstrip_chr "#" line).

(** The body of the loop of [process_file]: the value is the line that is
    appended to [updated_lines]. *)
Definition process_line (line : str) : IO str :=
  match directive_pattern_match (uncomment line) with
  | Some name =>
      let items := parse_directive (uncomment line) in
      match items with
      | _ :: _ =>
          items <- reorder items ;;
          ret (format_directive name items)
      | [] => ret line
      end
  | None => ret line
  end.

Definition process_lines (lines : list str) : IO (list str) :=
  map_io process_line lines.

(** [process_file(path)] *)
Definition process_file (path : str) : IO unit :=
  lines <- readlines path ;;
  updated_lines <- process_lines lines ;;
  writelines path updated_lines.

(** ** Vocabulary of the specification *)

Definition all_space (s : str) : Prop := Forall (fun c => is_space c = true) s.

Definition no_space (s : str) : Prop := Forall (fun c => is_space c = false) s.

(** [s] does not begin with whitespace. *)
Definition starts_clean (s : str) : Prop :=
  match s with
  | c :: _ => is_space c = false
  | [] => True
  end.

(** [s] neither begins nor ends with whitespace. *)
Definition trimmed (s : str) : Prop := starts_clean s /\ starts_clean (rev s).

Definition nonempty (s : str) : bool := negb (str_eqb s []).

(** Step 4 of the parser as the specification words it: every piece is
    trimmed, then the empty ones are dropped. *)
Definition tokens_of_pieces (pieces : list str) : list str :=
  filter nonempty (map Py.strip pieces).

(** A token as the parser produces them. *)
Definition clean_token (t : str) : Prop :=
  t <> [] /\ trimmed t /\ ~ In ","%char t /\ ~ In "#"%char t.

(** A keyword is followed by the end of the text or by a character that
    is not a word character. *)
Definition ends_word (after : str) : Prop :=
  match after with
  | c :: _ => is_word c = false
  | [] => True
  end.

Definition is_directive_name (name : str) : Prop :=
  lower name = lit "scanfor" \/ lower name = lit "showtools".

(** The lines matching [^#*\s*(scanfor|showtools)\b], letter case
    ignored. *)
Definition spec_directive_line (line : str) : Prop :=
  exists hashes spaces kw after,
    line = hashes ++ spaces ++ kw ++ after /\
    Forall (eq "#"%char) hashes /\
    all_space spaces /\
    is_directive_name kw /\
    ends_word after.

(** The line is detected by the loop of [process_file]. *)
Definition detected (line : str) : bool :=
  match directive_pattern_match (uncomment line) with
  | Some _ => true
  | None => false
  end.

(** The line is detected and its token list is not empty: the user is
    asked and the line is replaced. *)
Definition rewritten (line : str) : bool :=
  detected line &&
  match parse_directive (uncomment line) with
  | [] => false
  | _ :: _ => true
  end.

Definition count_rewritten (lines : list str) : nat :=
  List.length (filter rewritten lines).

(** [items[i]] where it is defined. *)
Definition sel (items : list str) (i : Z) : str := nth (Z.to_nat i) items [].

(** What [reorder] writes before it reads. *)
Fixpoint listing_from (i : nat) (items : list str) : list str :=
  match items with
  | [] => []
  | item :: rest =>
      ((lit "  " ++ Py.str_of_nat i ++ lit ". " ++ item) ++ [LF])
        :: listing_from (S i) rest
  end.

Definition reorder_banner (items : list str) : list str :=
  [lit "Current order:" ++ [LF]] ++ listing_from 1 items ++ [prompt].

(** The value of [reorder] as a function of the line that was read. *)
Definition reorder_value (items : list str) (raw : str) : list str :=
  match Py.strip raw with
  | [] => items
  | _ :: _ =>
      match try_indices items (Py.strip raw) with
      | None => items
      | Some indices => map (sel items) indices
      end
  end.

(** What [reorder] writes after it has read. *)
Definition reorder_verdict (items : list str) (raw : str) : list str :=
  match Py.strip raw with
  | [] => []
  | _ :: _ =>
      match try_indices items (Py.strip raw) with
      | None => [invalid_message ++ [LF]]
      | Some _ => []
      end
  end.

Definition after_reorder (items : list str) (raw : str) (rest : list str)
           (w : world) : world :=
  World rest (stdout w ++ reorder_banner items ++ reorder_verdict items raw)
        (files w).

(** The only newlines of [s], if any, are in the whitespace that ends
    it: so are the lines [readlines] returns. *)
Definition newline_at_end_only (s : str) : Prop :=
  exists body tail, s = body ++ tail /\ ~ In LF body /\ all_space tail.

(** A console with the given lines to read, nothing written yet, and
    one file. *)
Definition session (path text : str) (lines : list str) : world :=
  World lines [] (fun p => if path_eqb p path then Some text else None).

(** A console with the given lines to read and no file. *)
Definition console (lines : list str) : world :=
  World lines [] (fun _ => None).

(** How the loop of [process_file] changes one line: it keeps it, or
    replaces it by the formatter's line for the matched name and the
    tokens [reorder] made of some line [raw] of the console. *)
Definition line_update (l o : str) : Prop :=
  (rewritten l = false /\ o = l) \/
  (exists name raw,
      directive_pattern_match (uncomment l) = Some name /\
      parse_directive (uncomment l) <> [] /\
      o = format_directive name
            (reorder_value (parse_directive (uncomment l)) raw)).

(** [p] put before the first line of [ls]. *)
Definition prepend (p : str) (ls : list str) : list str :=
  match ls with
  | [] => match p with [] => [] | _ => [p] end
  | l :: rest => (p ++ l) :: rest
  end.

(** The lines of a text: each but the last ends with its only newline,
    the last may end without one and is then not empty. *)
Inductive lines_ok : list str -> Prop :=
| lines_ok_nil : lines_ok []
| lines_ok_last (body : str) :
    body <> [] -> ~ In LF body -> lines_ok [body]
| lines_ok_cons (body : str) (ls : list str) :
    ~ In LF body -> lines_ok ls -> lines_ok ((body ++ [LF]) :: ls).

(** ** Characters *)

Lemma chr_eqb_true (a b : ascii) : chr_eqb a b = true <-> a = b.
Proof. apply Ascii.eqb_eq. Qed.

Lemma chr_eqb_false (a b : ascii) : chr_eqb a b = false <-> a <> b.
Proof. apply Ascii.eqb_neq. Qed.

Lemma chr_eqb_refl (a : ascii) : chr_eqb a a = true.
Proof. apply Ascii.eqb_refl. Qed.

Lemma str_eqb_nil (s : str) : str_eqb s [] = true <-> s = [].
Proof. destruct s; simpl; split; intro H; congruence. Qed.

Lemma nonempty_true (s : str) : nonempty s = true <-> s <> [].
Proof.
  unfold nonempty. destruct s; simpl; split; intro H; congruence.
Qed.

(** A property of characters is checked on the 256 of them. *)
Lemma ascii_cases (P : ascii -> bool) :
  forallb P (map ascii_of_nat (seq 0 256)) = true -> forall c, P c = true.
Proof.
  intros H c. rewrite forallb_forall in H. apply H.
  rewrite <- (ascii_nat_embedding c). apply in_map, in_seq.
  pose proof (nat_ascii_bounded c). lia.
Qed.


Lemma lower_letter (p c : ascii) :
  in_range 97 122 p = true -> ascii_lower c = p ->
  is_word c = true /\ is_space c = false /\ c <> "#"%char.
Proof.
  intros Hp Hc. subst p.
  pose proof (ascii_cases
    (fun c => implb (in_range 97 122 (ascii_lower c))
                (is_word c && negb (is_space c) && negb (chr_eqb c "#")))
    eq_refl c) as A.
  cbv beta in A. rewrite Hp in A. simpl in A.
  apply andb_true_iff in A. destruct A as [A C].
  apply andb_true_iff in A. destruct A as [A B].
  apply negb_true_iff in B, C. apply chr_eqb_false in C. auto.
Qed.

(** ** Scanning a string *)

Section Scan.

Variable p : ascii -> bool.

Lemma take_drop (s : str) : Py.take_while p s ++ Py.drop_while p s = s.
Proof.
  induction s as [|c s IH]; simpl; [reflexivity|].
  destruct (p c); simpl; [now rewrite IH | reflexivity].
Qed.

Lemma take_while_all (s : str) :
  Forall (fun c => p c = true) (Py.take_while p s).
Proof.
  induction s as [|c s IH]; simpl; [constructor|].
  destruct (p c) eqn:E; [constructor; assumption | constructor].
Qed.

Lemma drop_while_head (s : str) :
  match Py.drop_while p s with
  | c :: _ => p c = false
  | [] => True
  end.
Proof.
  induction s as [|c s IH]; simpl; [exact I|].
  destruct (p c) eqn:E; [exact IH | exact E].
Qed.

Lemma drop_while_app (l r : str) :
  Forall (fun c => p c = true) l ->
  Py.drop_while p (l ++ r) = Py.drop_while p r.
Proof.
  induction 1 as [|c l Hc _ IH]; simpl; [reflexivity|].
  now rewrite Hc.
Qed.

Lemma drop_while_id (s : str) :
  match s with c :: _ => p c = false | [] => True end ->
  Py.drop_while p s = s.
Proof. destruct s as [|c s]; simpl; [reflexivity|]. now intros ->. Qed.

Lemma take_while_app (l r : str) :
  Forall (fun c => p c = true) l ->
  match r with c :: _ => p c = false | [] => True end ->
  Py.take_while p (l ++ r) = l.
Proof.
  intros Hl Hr. induction Hl as [|c l Hc _ IH]; simpl.
  - destruct r as [|c r]; simpl; [reflexivity | now rewrite Hr].
  - now rewrite Hc, IH.
Qed.

Lemma drop_while_In (s : str) (c : ascii) :
  In c (Py.drop_while p s) -> In c s.
Proof.
  intro H. rewrite <- (take_drop s). apply in_or_app. now right.
Qed.

Lemma take_while_In (s : str) (c : ascii) :
  In c (Py.take_while p s) -> In c s.
Proof.
  intro H. rewrite <- (take_drop s). apply in_or_app. now left.
Qed.

End Scan.

(** ** [strip] *)

Lemma lstrip_spec (s : str) :
  exists l, s = l ++ Py.lstrip s /\ all_space l /\ starts_clean (Py.lstrip s).
Proof.
  exists (Py.take_while is_space s). split; [|split].
  - symmetry. apply take_drop.
  - apply take_while_all.
  - apply (drop_while_head is_space s).
Qed.

Lemma starts_clean_app (a b : str) :
  starts_clean (a ++ b) -> starts_clean a.
Proof. destruct a; simpl; auto. Qed.

(** [strip] removes whitespace at both ends and nothing else. *)
Lemma strip_spec (s : str) :
  exists l r, s = l ++ Py.strip s ++ r /\
              all_space l /\ all_space r /\ trimmed (Py.strip s).
Proof.
  destruct (lstrip_spec s) as (l & Hs & Hl & Hc).
  unfold Py.strip, Py.rstrip.
  set (t := Py.lstrip s) in *.
  exists l, (rev (Py.take_while is_space (rev t))).
  assert (Ht : t = rev (Py.drop_while is_space (rev t))
                   ++ rev (Py.take_while is_space (rev t))).
  { rewrite <- rev_app_distr, take_drop. symmetry. apply rev_involutive. }
  split; [|split; [|split]].
  - now rewrite <- Ht.
  - exact Hl.
  - apply Forall_rev. apply take_while_all.
  - split.
    + rewrite Ht in Hc. eapply starts_clean_app. exact Hc.
    + rewrite rev_involutive. apply (drop_while_head is_space (rev t)).
Qed.

Lemma strip_In (s : str) (c : ascii) : In c (Py.strip s) -> In c s.
Proof.
  destruct (strip_spec s) as (l & r & Hs & _). intro H.
  rewrite Hs. apply in_or_app. right. apply in_or_app. now left.
Qed.

Lemma strip_trimmed (t r : str) :
  t <> [] -> trimmed t -> all_space r -> Py.strip (t ++ r) = t.
Proof.
  intros Hne [Hh Hl] Hr. unfold Py.strip, Py.rstrip, Py.lstrip.
  rewrite (drop_while_id is_space (t ++ r)).
  - rewrite rev_app_distr, drop_while_app by (apply Forall_rev; exact Hr).
    rewrite drop_while_id by exact Hl. apply rev_involutive.
  - destruct t as [|c t]; [congruence | exact Hh].
Qed.

Lemma strip_id (t : str) : trimmed t -> Py.strip t = t.
Proof.
  intros [Hh Hl]. unfold Py.strip, Py.rstrip, Py.lstrip.
  rewrite (drop_while_id is_space t) by exact Hh.
  rewrite drop_while_id by exact Hl. apply rev_involutive.
Qed.

Lemma strip_all_space (s : str) : all_space s -> Py.strip s = [].
Proof.
  intro H. unfold Py.strip, Py.rstrip, Py.lstrip.
  rewrite <- (app_nil_r s) at 1. rewrite drop_while_app by exact H.
  reflexivity.
Qed.

(** ** [split] on a character and [join] *)

Lemma split_chr_nonnil (sep : ascii) (s : str) : Py.split_chr sep s <> [].
Proof.
  destruct s as [|c s]; simpl; [discriminate|].
  destruct (chr_eqb c sep); [discriminate|].
  destruct (Py.split_chr sep s); discriminate.
Qed.

(** The pieces, put together again with the separator, are the text. *)
Lemma join_split_chr (sep : ascii) (s : str) :
  Py.join [sep] (Py.split_chr sep s) = s.
Proof.
  induction s as [|c s IH]; simpl; [reflexivity|].
  destruct (chr_eqb c sep) eqn:E.
  - apply chr_eqb_true in E. subst c.
    pose proof (split_chr_nonnil sep s) as N.
    destruct (Py.split_chr sep s) as [|x l]; [congruence|].
    change (Py.join [sep] ([] :: x :: l)) with (sep :: Py.join [sep] (x :: l)).
    now rewrite IH.
  - pose proof (split_chr_nonnil sep s) as N.
    destruct (Py.split_chr sep s) as [|x l]; [congruence|].
    destruct l as [|y l]; simpl in *; now rewrite IH.
Qed.

Lemma split_chr_pieces (sep : ascii) (s : str) :
  Forall (fun piece => ~ In sep piece /\ forall c, In c piece -> In c s)
         (Py.split_chr sep s).
Proof.
  induction s as [|c s IH]; simpl.
  - constructor; [|constructor]. split; [intros []|intros ? []].
  - assert (W : Forall (fun piece => ~ In sep piece /\
                          forall x, In x piece -> In x (c :: s))
                       (Py.split_chr sep s)).
    { eapply Forall_impl; [|exact IH]. simpl. intros a [A B].
      split; [exact A | intros x Hx; right; now apply B]. }
    destruct (chr_eqb c sep) eqn:E.
    + constructor; [split; [intros []|intros ? []] | exact W].
    + apply chr_eqb_false in E.
      destruct (Py.split_chr sep s) as [|x l].
      * constructor; [|constructor]. split.
        -- intros [H|[]]. congruence.
        -- intros y [H|[]]. now left.
      * inversion W as [|? ? [A B] W']; subst. constructor; [|exact W'].
        split.
        -- intros [H|H]; [congruence | now apply A].
        -- intros y [H|H]; [now left | now apply B].
Qed.

Lemma split_chr_no_sep (sep : ascii) (s : str) :
  ~ In sep s -> Py.split_chr sep s = [s].
Proof.
  induction s as [|c s IH]; simpl; [reflexivity|]. intro H.
  destruct (chr_eqb c sep) eqn:E.
  - apply chr_eqb_true in E. exfalso. apply H. now left.
  - rewrite IH; [reflexivity|]. intro K. apply H. now right.
Qed.

Lemma split_chr_app (sep : ascii) (a b : str) :
  ~ In sep a ->
  Py.split_chr sep (a ++ sep :: b) = a :: Py.split_chr sep b.
Proof.
  induction a as [|c a IH]; simpl; intro H.
  - now rewrite chr_eqb_refl.
  - destruct (chr_eqb c sep) eqn:E.
    + apply chr_eqb_true in E. exfalso. apply H. now left.
    + rewrite IH; [reflexivity|]. intro K. apply H. now right.
Qed.

(** ** [split(None, 1)] *)

Lemma no_space_negb (s : str) :
  no_space s -> Forall (fun c => negb (is_space c) = true) s.
Proof.
  apply Forall_impl. intros c H. now rewrite H.
Qed.

Lemma negb_no_space (s : str) :
  Forall (fun c => negb (is_space c) = true) s -> no_space s.
Proof.
  apply Forall_impl. intros c H. now apply negb_true_iff.
Qed.

Lemma starts_space_negb (s : str) :
  match s with c :: _ => is_space c = true | [] => True end ->
  match s with c :: _ => negb (is_space c) = false | [] => True end.
Proof. destruct s; [auto|]. intros ->. reflexivity. Qed.

Lemma split_ws1_none (s : str) : all_space s -> Py.split_ws1 s = [].
Proof.
  intro H. unfold Py.split_ws1, Py.lstrip.
  rewrite <- (app_nil_r s), drop_while_app by exact H. reflexivity.
Qed.

Lemma split_ws1_unfold (s : str) :
  Py.lstrip s <> [] ->
  Py.split_ws1 s =
    match Py.lstrip (Py.drop_while (fun x => negb (is_space x)) (Py.lstrip s)) with
    | [] => [Py.take_while (fun x => negb (is_space x)) (Py.lstrip s)]
    | rest => [Py.take_while (fun x => negb (is_space x)) (Py.lstrip s); rest]
    end.
Proof.
  unfold Py.split_ws1. destruct (Py.lstrip s); [congruence | reflexivity].
Qed.

Lemma lstrip_lead (lead kw tail : str) :
  all_space lead -> kw <> [] -> no_space kw ->
  Py.lstrip (lead ++ kw ++ tail) = kw ++ tail.
Proof.
  intros Hl Hne Hk. unfold Py.lstrip.
  rewrite drop_while_app by exact Hl.
  apply drop_while_id.
  destruct kw as [|c kw]; [congruence|].
  inversion Hk; subst. assumption.
Qed.

Lemma split_ws1_one (lead kw trail : str) :
  all_space lead -> kw <> [] -> no_space kw -> all_space trail ->
  Py.split_ws1 (lead ++ kw ++ trail) = [kw].
Proof.
  intros Hl Hne Hk Ht.
  rewrite split_ws1_unfold; rewrite lstrip_lead by assumption.
  - rewrite drop_while_app by (apply no_space_negb; exact Hk).
    rewrite take_while_app;
      [| apply no_space_negb; exact Hk
       | apply starts_space_negb; destruct Ht; [exact I | assumption]].
    rewrite (drop_while_id (fun x => negb (is_space x)) trail)
      by (apply starts_space_negb; destruct Ht; [exact I | assumption]).
    unfold Py.lstrip. rewrite <- (app_nil_r trail).
    rewrite drop_while_app by exact Ht. reflexivity.
  - destruct kw; [congruence | discriminate].
Qed.

Lemma split_ws1_two (lead kw sep rest : str) :
  all_space lead -> kw <> [] -> no_space kw ->
  sep <> [] -> all_space sep -> rest <> [] -> starts_clean rest ->
  Py.split_ws1 (lead ++ kw ++ sep ++ rest) = [kw; rest].
Proof.
  intros Hl Hne Hk Hs Hsep Hr Hc.
  assert (Hhead : match sep ++ rest with
                  | c :: _ => negb (is_space c) = false
                  | [] => True
                  end).
  { destruct sep as [|c sep]; [congruence|]. inversion Hsep; subst.
    simpl. now apply negb_false_iff. }
  rewrite split_ws1_unfold; rewrite lstrip_lead by assumption.
  - rewrite drop_while_app by (apply no_space_negb; exact Hk).
    rewrite take_while_app; [| apply no_space_negb; exact Hk | exact Hhead].
    rewrite (drop_while_id (fun x => negb (is_space x)) (sep ++ rest))
      by exact Hhead.
    unfold Py.lstrip. rewrite drop_while_app by exact Hsep.
    rewrite drop_while_id by exact Hc.
    destruct rest; [congruence | reflexivity].
  - destruct kw; [congruence | discriminate].
Qed.

(** Every text is whitespace, or one word between whitespace, or a word,
    whitespace and a remainder. *)
Lemma text_shape (text : str) :
  all_space text \/
  (exists lead kw trail,
      text = lead ++ kw ++ trail /\
      all_space lead /\ kw <> [] /\ no_space kw /\ all_space trail) \/
  (exists lead kw sep rest,
      text = lead ++ kw ++ sep ++ rest /\
      all_space lead /\ kw <> [] /\ no_space kw /\
      sep <> [] /\ all_space sep /\ rest <> [] /\ starts_clean rest).
Proof.
  set (ns := fun x => negb (is_space x)).
  set (lead := Py.take_while is_space text).
  set (t := Py.drop_while is_space text).
  set (kw := Py.take_while ns t).
  set (u := Py.drop_while ns t).
  set (sep := Py.take_while is_space u).
  set (rest := Py.drop_while is_space u).
  assert (E1 : text = lead ++ t) by (symmetry; apply take_drop).
  assert (E2 : t = kw ++ u) by (symmetry; apply take_drop).
  assert (E3 : u = sep ++ rest) by (symmetry; apply take_drop).
  assert (Hl : all_space lead) by apply take_while_all.
  assert (Hk : no_space kw) by (apply negb_no_space, take_while_all).
  assert (Hs : all_space sep) by apply take_while_all.
  assert (Hr : starts_clean rest) by apply (drop_while_head is_space u).
  destruct t as [|c t'] eqn:Et.
  { left. rewrite E1, app_nil_r. exact Hl. }
  assert (Hkne : kw <> []).
  { pose proof (drop_while_head is_space text) as H. fold t in H.
    rewrite Et in H. subst kw. simpl. unfold ns at 1. rewrite H.
    discriminate. }
  right. destruct rest as [|d rest'] eqn:Er.
  - left. exists lead, kw, sep. rewrite E1. rewrite E2 at 1. rewrite E3, app_nil_r.
    repeat split; assumption.
  - right. exists lead, kw, sep, (d :: rest').
    rewrite E1. rewrite E2 at 1. rewrite E3.
    repeat split; try assumption; try discriminate.
    intro Hsep. pose proof (drop_while_head ns (c :: t')) as H. fold u in H.
    rewrite E3, Hsep in H. simpl in H. unfold ns in H.
    simpl in Hr. rewrite Hr in H. discriminate.
Qed.

(** ** The parser *)

Lemma split1_head_app (sep : ascii) (text comment : str) :
  ~ In sep text ->
  (comment = [] \/ exists c, comment = sep :: c) ->
  Py.split1_head sep (text ++ comment) = text.
Proof.
  intros Hn Hc. unfold Py.split1_head. apply take_while_app.
  - apply Forall_forall. intros c Hin. apply negb_true_iff, chr_eqb_false.
    intros ->. contradiction.
  - destruct Hc as [-> | [c ->]]; [exact I|].
    now rewrite chr_eqb_refl.
Qed.

Lemma split1_head_id (sep : ascii) (text : str) :
  ~ In sep text -> Py.split1_head sep text = text.
Proof.
  intro H. rewrite <- (app_nil_r text) at 1.
  apply split1_head_app; auto.
Qed.

Lemma split1_head_spec (sep : ascii) (line : str) :
  exists comment,
    line = Py.split1_head sep line ++ comment /\
    ~ In sep (Py.split1_head sep line) /\
    (comment = [] \/ exists c, comment = sep :: c).
Proof.
  unfold Py.split1_head.
  set (p := fun c => negb (chr_eqb c sep)).
  exists (Py.drop_while p line). split; [|split].
  - symmetry. apply take_drop.
  - intro H. pose proof (take_while_all p line) as A.
    rewrite Forall_forall in A. apply A in H. unfold p in H.
    now rewrite chr_eqb_refl in H.
  - pose proof (drop_while_head p line) as A.
    destruct (Py.drop_while p line) as [|c r]; [now left|].
    right. exists r. unfold p in A. apply negb_false_iff, chr_eqb_true in A.
    now subst.
Qed.

Lemma filter_map_strip (pieces : list str) :
  map Py.strip
      (filter (fun item => negb (str_eqb (Py.strip item) [])) pieces)
  = tokens_of_pieces pieces.
Proof.
  unfold tokens_of_pieces, nonempty.
  induction pieces as [|x l IH]; simpl; [reflexivity|].
  destruct (negb (str_eqb (Py.strip x) [])); simpl; now rewrite IH.
Qed.

(** What follows the first [#] never reaches the tokens. *)
Lemma parse_directive_comment (text comment : str) :
  ~ In "#"%char text ->
  (comment = [] \/ exists c, comment = "#"%char :: c) ->
  parse_directive (text ++ comment) = parse_directive text.
Proof.
  intros Hn Hc. unfold parse_directive.
  now rewrite split1_head_app, split1_head_id by assumption.
Qed.

(** A text with no remainder after its first word has no tokens. *)
Lemma parse_directive_no_remainder (lead kw trail : str) :
  ~ In "#"%char (lead ++ kw ++ trail) ->
  all_space lead -> no_space kw -> all_space trail ->
  parse_directive (lead ++ kw ++ trail) = [].
Proof.
  intros Hn Hl Hk Ht. unfold parse_directive.
  rewrite split1_head_id by exact Hn.
  destruct kw as [|c kw].
  - rewrite split_ws1_none; [reflexivity|].
    apply Forall_app. split; assumption.
  - rewrite split_ws1_one by (assumption || discriminate). reflexivity.
Qed.

(** A text with a remainder has the trimmed, non-empty pieces of the
    remainder as its tokens. *)
Lemma parse_directive_remainder (lead kw sep rest : str) :
  ~ In "#"%char (lead ++ kw ++ sep ++ rest) ->
  all_space lead -> kw <> [] -> no_space kw ->
  sep <> [] -> all_space sep -> rest <> [] -> starts_clean rest ->
  parse_directive (lead ++ kw ++ sep ++ rest)
  = tokens_of_pieces (Py.split_chr "," rest).
Proof.
  intros Hn Hl Hne Hk Hs Hsep Hr Hc. unfold parse_directive.
  rewrite split1_head_id by exact Hn.
  rewrite split_ws1_two by assumption.
  apply filter_map_strip.
Qed.

Lemma not_in_app_inv (c : ascii) (a b : str) :
  ~ In c (a ++ b) -> ~ In c a /\ ~ In c b.
Proof.
  intro H. split; intro K; apply H; apply in_or_app; auto.
Qed.

(** The parser on an arbitrary line: no tokens, or the tokens of a
    remainder whose characters all come from before the first [#]. *)
Lemma parse_directive_cases (line : str) :
  parse_directive line = [] \/
  exists before rest after,
    line = before ++ rest ++ after /\ ~ In "#"%char rest /\
    parse_directive line = tokens_of_pieces (Py.split_chr "," rest).
Proof.
  destruct (split1_head_spec "#" line) as (comment & E & Hn & Hc).
  set (text := Py.split1_head "#" line) in *.
  rewrite E, parse_directive_comment by assumption.
  destruct (text_shape text) as [A | [(lead & kw & trail & Et & A) | B]].
  - left. replace text with (text ++ [] ++ []) by (now rewrite !app_nil_r).
    apply parse_directive_no_remainder;
      [now rewrite !app_nil_r | exact A | constructor | constructor].
  - left. destruct A as (Hl & Hne & Hk & Ht). rewrite Et in *.
    now apply parse_directive_no_remainder.
  - right. destruct B as (lead & kw & sep & rest & Et & Hl & Hne & Hk
                          & Hs & Hsep & Hr & Hc').
    exists (lead ++ kw ++ sep), rest, comment. rewrite Et in *.
    split; [now rewrite <- !app_assoc|]. split.
    + apply not_in_app_inv in Hn. destruct Hn as [_ Hn].
      apply not_in_app_inv in Hn. destruct Hn as [_ Hn].
      apply not_in_app_inv in Hn. tauto.
    + now apply parse_directive_remainder.
Qed.

Lemma tokens_of_pieces_clean (rest : str) :
  ~ In "#"%char rest ->
  Forall clean_token (tokens_of_pieces (Py.split_chr "," rest)).
Proof.
  intro Hn. apply Forall_forall. intros t Ht.
  unfold tokens_of_pieces in Ht. apply filter_In in Ht.
  destruct Ht as [Hin Hne]. apply nonempty_true in Hne.
  apply in_map_iff in Hin. destruct Hin as (piece & <- & Hp).
  pose proof (split_chr_pieces "," rest) as A.
  rewrite Forall_forall in A. destruct (A _ Hp) as [Hcomma Hsub].
  destruct (strip_spec piece) as (l & r & _ & _ & _ & Htrim).
  repeat split; try assumption; try apply Htrim.
  - intro K. apply Hcomma. now apply strip_In.
  - intro K. apply Hn. apply Hsub. now apply strip_In.
Qed.

(** Every token of the parser is non-empty, trimmed, and free of commas
    and of [#]. *)
Lemma parse_directive_clean (line : str) :
  Forall clean_token (parse_directive line).
Proof.
  destruct (parse_directive_cases line)
    as [-> | (before & rest & after & _ & Hn & ->)].
  - constructor.
  - now apply tokens_of_pieces_clean.
Qed.

(** ** The formatter and the round trip *)

Lemma join_In (sep : str) (items : list str) (c : ascii) :
  In c (Py.join sep items) ->
  In c sep \/ exists t, In t items /\ In c t.
Proof.
  induction items as [|x l IH]; simpl; [intros []|].
  destruct l as [|y l].
  - intro H. right. exists x. auto.
  - intro H. apply in_app_or in H. destruct H as [H|H].
    + right. exists x. auto.
    + apply in_app_or in H. destruct H as [H|H]; [now left|].
      destruct (IH H) as [K | (t & Ht & Hc)]; [now left|].
      right. exists t. split; [now right | exact Hc].
Qed.

Lemma join_cons2 (sep : str) (x y : str) (l : list str) :
  Py.join sep (x :: y :: l) = x ++ sep ++ Py.join sep (y :: l).
Proof. reflexivity. Qed.

Lemma join_starts_clean (sep : str) (items : list str) (tail : str) :
  items <> [] -> Forall clean_token items ->
  Py.join sep items ++ tail <> [] /\ starts_clean (Py.join sep items ++ tail).
Proof.
  intros Hne Hc. destruct items as [|x l]; [congruence|].
  inversion Hc as [|? ? (Hx & [Hh _] & _) _]; subst.
  destruct x as [|c x]; [congruence|].
  destruct l as [|y l]; simpl; (split; [discriminate | exact Hh]).
Qed.

Lemma LF_space : all_space [LF].
Proof. constructor; [reflexivity | constructor]. Qed.

(** The tokens, joined with commas and closed by a newline, split back
    into themselves. *)
Lemma tokens_join_LF (items : list str) :
  items <> [] -> Forall clean_token items ->
  tokens_of_pieces (Py.split_chr "," (Py.join (lit ",") items ++ [LF]))
  = items.
Proof.
  intros Hne Hc. induction Hc as [|t l (Ht & Htrim & Hcomma & _) Hl IH];
    [congruence|].
  destruct l as [|t2 l].
  - simpl Py.join. rewrite split_chr_no_sep.
    + unfold tokens_of_pieces. simpl.
      rewrite strip_trimmed by (assumption || apply LF_space).
      apply nonempty_true in Ht. now rewrite Ht.
    + intro K. apply in_app_or in K. destruct K as [K|[K|[]]];
        [contradiction | discriminate].
  - rewrite join_cons2. change (lit ",") with [","%char] at 1.
    rewrite <- !app_assoc. simpl app at 2.
    rewrite split_chr_app by exact Hcomma.
    unfold tokens_of_pieces in *. simpl map. simpl filter.
    rewrite (strip_id Htrim).
    apply nonempty_true in Ht. rewrite Ht.
    f_equal. apply IH. discriminate.
Qed.

(** The parser undoes the formatter on clean tokens. *)
Lemma parse_format (name : str) (items : list str) :
  name <> [] -> no_space name -> ~ In "#"%char name ->
  Forall clean_token items ->
  parse_directive (format_directive name items) = items.
Proof.
  intros Hne Hns Hh Hc. unfold format_directive.
  assert (Hj : ~ In "#"%char (Py.join (lit ",") items)).
  { intro K. apply join_In in K. destruct K as [[K|[]] | (t & Ht & K)];
      [discriminate|].
    rewrite Forall_forall in Hc. destruct (Hc _ Ht) as (_ & _ & _ & N).
    contradiction. }
  destruct items as [|x l].
  - change (name ++ lit " " ++ Py.join (lit ",") [] ++ [LF])
      with ([] ++ name ++ [" "%char; LF]).
    apply parse_directive_no_remainder; try assumption.
    + simpl. intro K. apply in_app_or in K.
      destruct K as [K|[K|[K|[]]]]; [contradiction | discriminate..].
    + constructor.
    + constructor; [reflexivity | apply LF_space].
  - destruct (@join_starts_clean (lit ",") (x :: l) [LF]) as [Hr Hs];
      [discriminate | exact Hc |].
    change (name ++ lit " " ++ Py.join (lit ",") (x :: l) ++ [LF])
      with ([] ++ name ++ [" "%char] ++ (Py.join (lit ",") (x :: l) ++ [LF])).
    rewrite parse_directive_remainder; try assumption.
    + apply tokens_join_LF; [discriminate | exact Hc].
    + simpl. intro K. apply in_app_or in K.
      destruct K as [K|[K|K]]; [contradiction | discriminate |].
      apply in_app_or in K. destruct K as [K|[K|[]]];
        [contradiction | discriminate].
    + constructor.
    + discriminate.
    + constructor; [reflexivity | constructor].
Qed.

(** ** Directive names *)

Lemma lower_letters (name kw : str) :
  lower name = kw -> Forall (fun p => in_range 97 122 p = true) kw ->
  Forall (fun c => is_word c = true /\ is_space c = false /\ c <> "#"%char)
         name.
Proof.
  intros <- H. induction name as [|c name IH]; [constructor|].
  simpl in H. inversion H; subst. constructor; [|now apply IH].
  now apply (@lower_letter (ascii_lower c)).
Qed.

Lemma keyword_letters (kw : str) :
  In kw keywords ->
  kw <> [] /\ Forall (fun p => in_range 97 122 p = true) kw.
Proof.
  intros [<- | [<- | []]]; (split; [discriminate|]);
    repeat constructor.
Qed.

Lemma directive_name_keyword (name : str) :
  is_directive_name name <-> In (lower name) keywords.
Proof.
  unfold is_directive_name, keywords. simpl. split.
  - intros [H|H]; rewrite H; auto.
  - intros [H|[H|[]]]; auto.
Qed.

(** A directive name is a non-empty run of letters. *)
Lemma directive_name_shape (name : str) :
  is_directive_name name ->
  name <> [] /\ no_space name /\ ~ In "#"%char name /\
  Forall (fun c => is_word c = true) name.
Proof.
  intro H. apply directive_name_keyword in H.
  destruct (keyword_letters H) as [Hne Hl].
  pose proof (@lower_letters name _ eq_refl Hl) as A.
  split; [|split; [|split]].
  - intros ->. now apply Hne.
  - eapply Forall_impl; [|exact A]. simpl. tauto.
  - intro K. rewrite Forall_forall in A. destruct (A _ K) as (_ & _ & N).
    now apply N.
  - eapply Forall_impl; [|exact A]. simpl. tauto.
Qed.

(** ** Detection of directive lines *)

Lemma match_ignorecase_sound (pat s m r : str) :
  match_ignorecase pat s = Some (m, r) -> s = m ++ r /\ lower m = pat.
Proof.
  revert s m r. induction pat as [|p pat IH]; intros s m r H.
  - destruct s; simpl in H; inversion H; subst; auto.
  - destruct s as [|c s]; simpl in H; [discriminate|].
    destruct (chr_eqb (ascii_lower c) p) eqn:E; [|discriminate].
    destruct (match_ignorecase pat s) as [[m' r']|] eqn:M; [|discriminate].
    inversion H; subst. apply chr_eqb_true in E.
    destruct (IH _ _ _ M) as [-> <-]. simpl. now rewrite E.
Qed.

Lemma match_ignorecase_complete (m r : str) :
  match_ignorecase (lower m) (m ++ r) = Some (m, r).
Proof.
  induction m as [|c m IH]; simpl.
  - destruct r; reflexivity.
  - now rewrite chr_eqb_refl, IH.
Qed.

Lemma word_boundary_after (m r : str) :
  m <> [] -> Forall (fun c => is_word c = true) m ->
  (word_boundary m r = true <-> ends_word r).
Proof.
  intros Hne Hw. unfold word_boundary, ends_word.
  destruct (rev m) as [|c t] eqn:E.
  - apply (f_equal (@rev ascii)) in E. rewrite rev_involutive in E.
    simpl in E. congruence.
  - assert (Hc : is_word c = true).
    { rewrite Forall_forall in Hw. apply Hw. apply in_rev. rewrite E.
      now left. }
    rewrite Hc. destruct r as [|d r]; simpl; [tauto|].
    destruct (is_word d); simpl; split; congruence.
Qed.

Lemma match_alternatives_sound (alts : list str) (s name : str) :
  match_alternatives alts s = Some name ->
  exists after, s = name ++ after /\ In (lower name) alts /\
                word_boundary name after = true.
Proof.
  induction alts as [|kw alts IH]; simpl; [discriminate|].
  destruct (match_ignorecase kw s) as [[m r]|] eqn:M.
  - destruct (word_boundary m r) eqn:B.
    + intro H. inversion H; subst.
      destruct (match_ignorecase_sound _ _ M) as [-> <-].
      exists r. auto.
    + intro H. destruct (IH H) as (a & ? & ? & ?). exists a. auto.
  - intro H. destruct (IH H) as (a & ? & ? & ?). exists a. auto.
Qed.

(** What the pattern matches is a directive name at the start of the
    text, read as it stands there, and a word ends after it. *)
Lemma directive_pattern_sound (s name : str) :
  directive_pattern_match s = Some name ->
  exists after, s = name ++ after /\ is_directive_name name /\
                ends_word after.
Proof.
  intro H. apply match_alternatives_sound in H.
  destruct H as (after & E & K & B). exists after.
  apply directive_name_keyword in K.
  destruct (directive_name_shape K) as (Hne & _ & _ & Hw).
  split; [exact E | split; [exact K|]].
  now apply (word_boundary_after after Hne Hw).
Qed.

Lemma scanfor_not_showtools (name after : str) :
  lower name = lit "showtools" ->
  match_ignorecase (lit "scanfor") (name ++ after) = None.
Proof.
  intro H. destruct name as [|c1 [|c2 name]]; try discriminate.
  simpl in H. injection H as H1 H2 _.
  simpl. now rewrite H1, H2.
Qed.

Lemma directive_pattern_complete (name after : str) :
  is_directive_name name -> ends_word after ->
  directive_pattern_match (name ++ after) = Some name.
Proof.
  intros K B.
  destruct (directive_name_shape K) as (Hne & _ & _ & Hw).
  apply (word_boundary_after after Hne Hw) in B.
  unfold directive_pattern_match, keywords.
  destruct K as [K|K].
  - unfold match_alternatives. rewrite <- K at 1.
    now rewrite match_ignorecase_complete, B.
  - unfold match_alternatives.
    rewrite (scanfor_not_showtools _ _ K).
    rewrite <- K at 1. now rewrite match_ignorecase_complete, B.
Qed.

Lemma space_not_hash (c : ascii) :
  is_space c = true -> chr_eqb "#" c = false.
Proof.
  intro H. apply chr_eqb_false. intros <-. discriminate.
Qed.

(** [uncomment] removes a run of [#] and then a run of whitespace. *)
Lemma uncomment_spec (line : str) :
  exists hashes spaces,
    line = hashes ++ spaces ++ uncomment line /\
    Forall (eq "#"%char) hashes /\ all_space spaces.
Proof.
  unfold uncomment, Py.lstrip, Py.lstrip_chr.
  set (t := Py.drop_while (chr_eqb "#") line).
  exists (Py.take_while (chr_eqb "#") line), (Py.take_while is_space t).
  split; [|split].
  - rewrite (take_drop is_space t). symmetry. apply take_drop.
  - eapply Forall_impl; [|apply take_while_all].
    intros c H. now apply chr_eqb_true in H.
  - apply take_while_all.
Qed.

Lemma uncomment_app (hashes spaces s : str) :
  Forall (eq "#"%char) hashes -> all_space spaces ->
  match s with
  | c :: _ => is_space c = false /\ c <> "#"%char
  | [] => True
  end ->
  uncomment (hashes ++ spaces ++ s) = s.
Proof.
  intros Hh Hs Hc. unfold uncomment, Py.lstrip, Py.lstrip_chr.
  rewrite drop_while_app.
  - rewrite (drop_while_id (chr_eqb "#") (spaces ++ s)).
    + rewrite drop_while_app by exact Hs. apply drop_while_id.
      destruct s; [exact I | tauto].
    + destruct Hs as [|c spaces Hc' _]; cbn [app].
      * destruct s as [|c s]; [exact I|]. apply chr_eqb_false.
        intro K. now apply (proj2 Hc).
      * now apply space_not_hash.
  - eapply Forall_impl; [|exact Hh]. intros c <-.
    apply chr_eqb_refl.
Qed.

Lemma uncomment_directive (hashes spaces kw after : str) :
  Forall (eq "#"%char) hashes -> all_space spaces ->
  is_directive_name kw ->
  uncomment (hashes ++ spaces ++ kw ++ after) = kw ++ after.
Proof.
  intros Hh Hs K. apply uncomment_app; try assumption.
  destruct (directive_name_shape K) as (Hne & Hns & Hnh & _).
  destruct kw as [|c kw]; [congruence|]. simpl. split.
  - now inversion Hns.
  - intro E. apply Hnh. now left.
Qed.

(** Detection is the pattern of the specification. *)
Lemma detected_iff (line : str) :
  detected line = true <-> spec_directive_line line.
Proof.
  unfold detected, spec_directive_line. split.
  - destruct (directive_pattern_match (uncomment line)) as [name|] eqn:D;
      [intros _ | discriminate].
    destruct (directive_pattern_sound _ D) as (after & E & K & B).
    destruct (uncomment_spec line) as (hashes & spaces & L & Hh & Hs).
    exists hashes, spaces, name, after. rewrite <- E. auto.
  - intros (hashes & spaces & kw & after & -> & Hh & Hs & K & B).
    rewrite uncomment_directive by assumption.
    now rewrite directive_pattern_complete.
Qed.

(** ** [sorted] and [range] *)

Lemma insert_perm (x : Z) (l : list Z) : Permutation (Py.insert x l) (x :: l).
Proof.
  induction l as [|y l IH]; simpl; [reflexivity|].
  destruct (x <=? y)%Z; [reflexivity|].
  rewrite IH. apply perm_swap.
Qed.

Lemma sorted_perm (l : list Z) : Permutation (Py.sorted l) l.
Proof.
  induction l as [|x l IH]; simpl; [reflexivity|].
  rewrite insert_perm. now constructor.
Qed.

Lemma insert_sorted (x : Z) (l : list Z) :
  StronglySorted Z.le l -> StronglySorted Z.le (Py.insert x l).
Proof.
  induction 1 as [|y l Hs IH Hy]; simpl.
  - constructor; constructor.
  - destruct (x <=? y)%Z eqn:E.
    + apply Z.leb_le in E. constructor.
      * now constructor.
      * constructor; [exact E|].
        eapply Forall_impl; [|exact Hy]. intros z Hz. lia.
    + apply Z.leb_gt in E. constructor; [exact IH|].
      rewrite Forall_forall in *. intros z Hz.
      apply (Permutation_in _ (insert_perm x l)) in Hz.
      destruct Hz as [<- | Hz]; [lia | now apply Hy].
Qed.

Lemma sorted_sorted (l : list Z) : StronglySorted Z.le (Py.sorted l).
Proof.
  induction l as [|x l IH]; simpl; [constructor|].
  now apply insert_sorted.
Qed.

(** Two sorted lists with the same elements are the same list. *)
Lemma sorted_unique (a b : list Z) :
  StronglySorted Z.le a -> StronglySorted Z.le b -> Permutation a b -> a = b.
Proof.
  intros Ha. revert b. induction Ha as [|x a Ha IH Hx]; intros b Hb P.
  - apply Permutation_nil in P. now subst.
  - destruct Hb as [|y b Hb Hy].
    + apply Permutation_sym, Permutation_nil in P. discriminate.
    + assert (x = y).
      { rewrite Forall_forall in Hx, Hy.
        assert (Iy : In y (x :: a))
          by (apply (Permutation_in _ (Permutation_sym P)); now left).
        assert (Ix : In x (y :: b))
          by (apply (Permutation_in _ P); now left).
        destruct Iy as [Iy|Iy]; [now auto|].
        destruct Ix as [Ix|Ix]; [now auto|].
        apply Hx in Iy. apply Hy in Ix. lia. }
      subst y. f_equal. apply IH; [exact Hb|].
      now apply Permutation_cons_inv in P.
Qed.

Lemma range_sorted (n : nat) : StronglySorted Z.le (Py.range n).
Proof.
  unfold Py.range. generalize 0%nat as k.
  induction n as [|n IH]; intro k; simpl; constructor; [apply IH|].
  apply Forall_forall. intros z Hz. apply in_map_iff in Hz.
  destruct Hz as (m & <- & Hm). apply in_seq in Hm. lia.
Qed.

Lemma range_In (n : nat) (z : Z) :
  In z (Py.range n) <-> (0 <= z < Z.of_nat n)%Z.
Proof.
  unfold Py.range. rewrite in_map_iff. split.
  - intros (m & <- & Hm). apply in_seq in Hm. lia.
  - intro H. exists (Z.to_nat z). split; [lia|]. apply in_seq. lia.
Qed.

Lemma list_Z_eqb_eq (a b : list Z) : Py.list_Z_eqb a b = true <-> a = b.
Proof.
  revert b. induction a as [|x a IH]; intros [|y b]; simpl;
    try (split; intro; congruence).
  rewrite andb_true_iff, Z.eqb_eq, IH. split.
  - intros [-> ->]. reflexivity.
  - intro H. inversion H. auto.
Qed.

(** The test [sorted(indices) != list(range(n))] fails exactly on the
    permutations of [0 .. n-1]. *)
Lemma sorted_range_iff (l : list Z) (n : nat) :
  Py.sorted l = Py.range n <-> Permutation l (Py.range n).
Proof.
  split.
  - intro H. rewrite <- H. symmetry. apply sorted_perm.
  - intro P. apply sorted_unique.
    + apply sorted_sorted.
    + apply range_sorted.
    + now rewrite sorted_perm.
Qed.

Lemma nth_seq_id (l : list str) :
  map (fun k => nth k l []) (seq 0 (List.length l)) = l.
Proof.
  induction l as [|x l IH]; simpl; [reflexivity|].
  f_equal. rewrite <- seq_shift, map_map. exact IH.
Qed.

Lemma sel_range (items : list str) :
  map (sel items) (Py.range (List.length items)) = items.
Proof.
  unfold Py.range, sel. rewrite map_map.
  transitivity (map (fun k => nth k items []) (seq 0 (List.length items)));
    [|apply nth_seq_id].
  apply map_ext. intro k. now rewrite Nat2Z.id.
Qed.

(** ** The response of the user *)

Lemma parse_indices_some (tokens : list str) (indices : list Z) :
  parse_indices tokens = Some indices <->
  Forall2 (fun tok i => Py.int tok = Some (i + 1)%Z) tokens indices.
Proof.
  revert indices. induction tokens as [|x l IH]; intro indices; simpl.
  - split; intro H; [inversion H; constructor | inversion H; reflexivity].
  - destruct (Py.int x) as [v|] eqn:E.
    + destruct (parse_indices l) as [r|] eqn:R; simpl; split; intro H.
      * inversion H; subst. constructor; [rewrite E; f_equal; lia | now apply IH].
      * inversion H as [|? i ? r' Hi Hr]; subst.
        apply IH in Hr. inversion Hr; subst.
        do 2 f_equal. assert (v = (i + 1)%Z) by congruence. lia.
      * discriminate.
      * inversion H as [|? i ? r' Hi Hr]; subst. apply IH in Hr.
        discriminate.
    + split; intro H; [discriminate|].
      inversion H; subst. congruence.
Qed.

Lemma parse_indices_none (tokens : list str) :
  parse_indices tokens = None <->
  exists tok, In tok tokens /\ Py.int tok = None.
Proof.
  induction tokens as [|x l IH]; simpl.
  - split; [discriminate | intros (? & [] & _)].
  - destruct (Py.int x) as [v|] eqn:E.
    + destruct (parse_indices l) as [r|] eqn:R; simpl; split.
      * discriminate.
      * intros (tok & [<-|Hin] & Ht); [congruence|].
        assert (K : Some r = None) by (apply IH; eauto).
        discriminate.
      * intros _. destruct (proj1 IH eq_refl) as (tok & Hin & Ht). eauto.
      * reflexivity.
    + split; [intros _; eauto | reflexivity].
Qed.

Lemma try_indices_some (items : list str) (response : str)
      (indices : list Z) :
  try_indices items response = Some indices <->
  parse_indices (Py.split_ws response) = Some indices /\
  Permutation indices (Py.range (List.length items)).
Proof.
  unfold try_indices.
  destruct (parse_indices (Py.split_ws response)) as [idx|];
    [|split; [discriminate | intros [? _]; discriminate]].
  destruct (Py.list_Z_eqb (Py.sorted idx) (Py.range (List.length items)))
    eqn:E.
  - apply list_Z_eqb_eq, sorted_range_iff in E. split.
    + intro H. inversion H; subst. auto.
    + intros [H _]. exact H.
  - split; [discriminate|]. intros [H P]. inversion H; subst.
    apply sorted_range_iff, list_Z_eqb_eq in P. congruence.
Qed.

Lemma try_indices_none (items : list str) (response : str) :
  try_indices items response = None <->
  parse_indices (Py.split_ws response) = None \/
  exists indices,
    parse_indices (Py.split_ws response) = Some indices /\
    ~ Permutation indices (Py.range (List.length items)).
Proof.
  destruct (try_indices items response) as [idx|] eqn:T.
  - apply try_indices_some in T. destruct T as [T P]. split; [discriminate|].
    intros [H | (i & H & N)]; [congruence|].
    assert (i = idx) by congruence. subst. contradiction.
  - split; [intros _ | reflexivity].
    destruct (parse_indices (Py.split_ws response)) as [idx|] eqn:E;
      [right | now left].
    exists idx. split; [reflexivity|]. intro P.
    assert (K : try_indices items response = Some idx)
      by (apply try_indices_some; auto).
    congruence.
Qed.

(** ** Running [reorder] *)

Lemma print_listing_run (i : nat) (items : list str) (w : world) :
  print_listing i items w
  = Ok tt (World (stdin w) (stdout w ++ listing_from i items) (files w)).
Proof.
  revert i w. induction items as [|item rest IH]; intros i w.
  - simpl. unfold ret. rewrite app_nil_r. now destruct w.
  - simpl. unfold bind, print. rewrite IH. simpl.
    now rewrite <- app_assoc.
Qed.

Lemma getitem_run (items : list str) (i : Z) (w : world) :
  (0 <= i < Z.of_nat (List.length items))%Z ->
  getitem items i w = Ok (sel items i) w.
Proof.
  intro H. unfold getitem, sel.
  destruct (i <? 0)%Z eqn:N; [apply Z.ltb_lt in N; lia|].
  replace ((0 <=? i) && (i <? Z.of_nat (List.length items)))%Z with true
    by (symmetry; apply andb_true_iff; split;
        [apply Z.leb_le | apply Z.ltb_lt]; lia).
  destruct (nth_error items (Z.to_nat i)) as [x|] eqn:E.
  - now rewrite (nth_error_nth _ _ _ E).
  - apply nth_error_None in E. lia.
Qed.

Lemma map_io_getitem (items : list str) (indices : list Z) (w : world) :
  Forall (fun i => (0 <= i < Z.of_nat (List.length items))%Z) indices ->
  map_io (getitem items) indices w = Ok (map (sel items) indices) w.
Proof.
  induction 1 as [|i l Hi _ IH]; simpl; [reflexivity|].
  unfold bind. rewrite getitem_run by exact Hi. now rewrite IH.
Qed.

Lemma permutation_in_range (indices : list Z) (n : nat) :
  Permutation indices (Py.range n) ->
  Forall (fun i => (0 <= i < Z.of_nat n)%Z) indices.
Proof.
  intro P. apply Forall_forall. intros i Hi. apply range_In.
  now apply (Permutation_in _ P).
Qed.

(** [reorder] on a console that has a line to read: it returns
    [reorder_value], having read that line and written the listing, the
    prompt and, for an invalid line, the message. *)
Lemma reorder_run (items : list str) (raw : str) (rest : list str)
      (w : world) :
  stdin w = raw :: rest ->
  reorder items w
  = Ok (reorder_value items raw) (after_reorder items raw rest w).
Proof.
  destruct w as [inp out fs]. simpl. intros ->.
  unfold reorder, bind at 1. unfold print at 1. simpl.
  unfold bind at 1. rewrite print_listing_run. simpl.
  unfold bind, input. simpl.
  unfold after_reorder, reorder_value, reorder_verdict, reorder_banner.
  simpl stdout. simpl files.
  destruct (Py.strip raw) as [|c r] eqn:S.
  - unfold ret. rewrite app_nil_r, <- !app_assoc. reflexivity.
  - destruct (try_indices items (c :: r)) as [indices|] eqn:T.
    + apply try_indices_some in T. destruct T as [_ P].
      rewrite map_io_getitem by (now apply permutation_in_range).
      rewrite app_nil_r, <- !app_assoc. reflexivity.
    + unfold print, ret. simpl stdout. simpl stdin. simpl files.
      rewrite <- !app_assoc. reflexivity.
Qed.

(** With nothing to read, [input] raises [EOFError]. *)
Lemma reorder_eof (items : list str) (w : world) :
  stdin w = [] ->
  exists w', reorder items w = Raise EOFError w' /\ files w' = files w.
Proof.
  destruct w as [inp out fs]. simpl. intros ->.
  unfold reorder, bind at 1. unfold print at 1. simpl.
  unfold bind at 1. rewrite print_listing_run. simpl.
  unfold bind, input. simpl. eauto.
Qed.

(** Whatever was read, the value is a rearrangement of the tokens. *)
Lemma reorder_value_perm (items : list str) (raw : str) :
  Permutation (reorder_value items raw) items.
Proof.
  unfold reorder_value. destruct (Py.strip raw); [reflexivity|].
  destruct (try_indices items (a :: s)) as [indices|] eqn:T; [|reflexivity].
  apply try_indices_some in T. destruct T as [_ P].
  rewrite <- (sel_range items) at 2. now apply Permutation_map.
Qed.

(** ** Running the file processor *)

Lemma rewritten_false (line : str) :
  rewritten line = false <->
  detected line = false \/ parse_directive (uncomment line) = [].
Proof.
  unfold rewritten. destruct (detected line); simpl.
  - destruct (parse_directive (uncomment line)); split; auto.
    + intros [H|H]; discriminate.
  - split; auto.
Qed.

(** A line that is not rewritten is passed on as it is, and nothing is
    read or written. *)
Lemma process_line_kept (line : str) (w : world) :
  rewritten line = false -> process_line line w = Ok line w.
Proof.
  unfold rewritten, detected, process_line.
  destruct (directive_pattern_match (uncomment line)); [|reflexivity].
  destruct (parse_directive (uncomment line)); [reflexivity|].
  discriminate.
Qed.

(** A rewritten line is the formatter's line for the matched name and
    the tokens [reorder] returned. *)
Lemma process_line_rewritten (line name : str) (items : list str)
      (raw : str) (rest : list str) (w : world) :
  directive_pattern_match (uncomment line) = Some name ->
  parse_directive (uncomment line) = items -> items <> [] ->
  stdin w = raw :: rest ->
  process_line line w
  = Ok (format_directive name (reorder_value items raw))
       (after_reorder items raw rest w).
Proof.
  intros D P Hne Hin. unfold process_line. rewrite D, P.
  destruct items as [|x l]; [congruence|].
  unfold bind. now rewrite (@reorder_run _ _ _ _ Hin).
Qed.

Lemma rewritten_true (line : str) :
  rewritten line = true ->
  exists name, directive_pattern_match (uncomment line) = Some name /\
               parse_directive (uncomment line) <> [].
Proof.
  unfold rewritten, detected.
  destruct (directive_pattern_match (uncomment line)) as [name|];
    [|discriminate].
  destruct (parse_directive (uncomment line)); [discriminate|].
  intros _. exists name. split; [reflexivity | discriminate].
Qed.

(** With a line to read for every rewritten line, the loop ends
    normally, leaves the files alone and changes rewritten lines only. *)
Lemma process_lines_run (lines : list str) (w : world) :
  (count_rewritten lines <= List.length (stdin w))%nat ->
  exists out w',
    process_lines lines w = Ok out w' /\
    files w' = files w /\
    Forall2 (fun l o => rewritten l = false -> o = l) lines out.
Proof.
  revert w. induction lines as [|line lines IH]; intros w Hn.
  - exists [], w. repeat split. constructor.
  - unfold process_lines in *. simpl. unfold bind.
    unfold count_rewritten in Hn. simpl in Hn.
    destruct (rewritten line) eqn:R.
    + simpl in Hn. destruct (stdin w) as [|raw rest] eqn:Hin;
        [simpl in Hn; lia|].
      destruct (@rewritten_true _ R) as (name & D & Hne).
      rewrite (@process_line_rewritten _ _ _ _ _ _ D eq_refl Hne Hin).
      destruct (IH (after_reorder (parse_directive (uncomment line)) raw
                                  rest w)) as (out & w' & E & F & A).
      { simpl. unfold count_rewritten. simpl in Hn. lia. }
      rewrite E. eexists _, w'. split; [reflexivity|].
      split; [exact F|]. constructor; [congruence | exact A].
    + rewrite (@process_line_kept _ w R).
      destruct (IH w Hn) as (out & w' & E & F & A).
      rewrite E. eexists _, w'. split; [reflexivity|].
      split; [exact F|]. constructor; [auto | exact A].
Qed.

Lemma str_eqb_refl (s : str) : str_eqb s s = true.
Proof.
  induction s as [|c s IH]; simpl; [reflexivity|].
  now rewrite chr_eqb_refl, IH.
Qed.

(** [process_file] on an existing file, with a line to read for every
    rewritten line: the file becomes the concatenation of the lines of
    the loop. *)
Lemma process_file_run (path text : str) (w : world) :
  files w path = Some text ->
  (count_rewritten (lines_from [] (universal_newlines text))
   <= List.length (stdin w))%nat ->
  exists out w',
    process_file path w = Ok tt w' /\
    files w' path = Some (List.concat out) /\
    Forall2 (fun l o => rewritten l = false -> o = l)
            (lines_from [] (universal_newlines text)) out.
Proof.
  intros Hf Hn. unfold process_file, bind, readlines. rewrite Hf.
  destruct (@process_lines_run _ w Hn) as (out & w' & E & F & A).
  rewrite E. unfold writelines.
  eexists out, _. split; [reflexivity|]. split; [|exact A].
  simpl. unfold path_eqb. now rewrite str_eqb_refl.
Qed.

(** ** [split()] *)

Lemma split_ws_from_space (cur r : str) :
  all_space r ->
  Py.split_ws_from cur r = match cur with [] => [] | _ => [rev cur] end.
Proof.
  intro H. revert cur. induction H as [|c r Hc _ IH]; intro cur; simpl;
    [reflexivity|].
  rewrite Hc. destruct cur; now rewrite IH.
Qed.

Lemma split_ws_from_app (cur s r : str) :
  all_space r -> Py.split_ws_from cur (s ++ r) = Py.split_ws_from cur s.
Proof.
  intro H. revert cur. induction s as [|c s IH]; intro cur; simpl.
  - now apply split_ws_from_space.
  - destruct (is_space c); [destruct cur|]; now rewrite IH.
Qed.

Lemma split_ws_lead (l t : str) :
  all_space l -> Py.split_ws (l ++ t) = Py.split_ws t.
Proof.
  unfold Py.split_ws. induction 1 as [|c l Hc _ IH]; simpl;
    [reflexivity|].
  now rewrite Hc.
Qed.

(** Trimming a response does not change its words. *)
Lemma split_ws_strip (s : str) : Py.split_ws (Py.strip s) = Py.split_ws s.
Proof.
  destruct (strip_spec s) as (l & r & E & Hl & Hr & _).
  rewrite E at 2. rewrite split_ws_lead by exact Hl.
  unfold Py.split_ws. now rewrite split_ws_from_app.
Qed.

(** ** The reorderer *)

Lemma one_based_indices (P : list nat) (n : nat) :
  Permutation P (seq 1 n) ->
  Permutation (map (fun p => Z.of_nat p - 1)%Z P) (Py.range n).
Proof.
  intro H. apply (Permutation_map (fun p => Z.of_nat p - 1)%Z) in H.
  rewrite <- seq_shift, map_map in H. unfold Py.range.
  rewrite (map_ext Z.of_nat (fun x => Z.of_nat (S x) - 1)%Z);
    [exact H|]. intro k. lia.
Qed.

Lemma one_based_tokens (tokens : list str) (P : list nat) :
  Forall2 (fun tok p => Py.int tok = Some (Z.of_nat p)) tokens P ->
  parse_indices tokens = Some (map (fun p => Z.of_nat p - 1)%Z P).
Proof.
  intro H. apply parse_indices_some.
  induction H as [|tok p l P' Hp _ IH]; simpl; constructor; [|exact IH].
  rewrite Hp. f_equal. lia.
Qed.

Lemma sel_one_based (items : list str) (P : list nat) :
  map (sel items) (map (fun p => Z.of_nat p - 1)%Z P)
  = map (fun p => nth (p - 1) items []) P.
Proof.
  rewrite map_map. apply map_ext. intro p. unfold sel. f_equal. lia.
Qed.

(** C1. When the words of the line the user enters are integers that
    form a permutation [P] of [1 .. N], [N] the number of tokens,
    [reorder] returns the tokens [T[p-1]] for [p] in [P], in that order:
    result[i] = items[indices[i]] for the indices [p - 1]. *)
Theorem reorder_applies_permutation
        (items : list str) (raw : str) (P : list nat)
        (rest : list str) (w : world) :
  stdin w = raw :: rest ->
  Forall2 (fun tok p => Py.int tok = Some (Z.of_nat p)) (Py.split_ws raw) P ->
  Permutation P (seq 1 (List.length items)) ->
  reorder items w
  = Ok (map (fun p => nth (p - 1) items []) P)
       (World rest (stdout w ++ reorder_banner items) (files w)).
Proof.
  intros Hin Htok Hperm.
  rewrite (@reorder_run _ _ _ _ Hin).
  pose proof (@one_based_tokens _ _ Htok) as T.
  pose proof (@one_based_indices _ _ Hperm) as Q.
  assert (E : try_indices items (Py.strip raw)
              = Some (map (fun p => Z.of_nat p - 1)%Z P)).
  { apply try_indices_some. rewrite split_ws_strip. auto. }
  unfold after_reorder, reorder_value, reorder_verdict. rewrite E.
  destruct (Py.strip raw) as [|c r] eqn:S.
  - rewrite <- split_ws_strip, S in Htok. inversion Htok; subst.
    apply Permutation_nil in Hperm.
    destruct items; [|discriminate]. now rewrite app_nil_r.
  - now rewrite sel_one_based, app_nil_r.
Qed.

(** C4. When the line the user enters is not empty once trimmed, and
    one of its words is not an integer or the decremented integers are
    not a permutation of [0 .. N-1], [reorder] does not raise: it writes
    the invalid-input message and returns the tokens as they were. *)
Theorem reorder_invalid_response
        (items : list str) (raw : str) (rest : list str) (w : world) :
  stdin w = raw :: rest ->
  Py.strip raw <> [] ->
  (exists tok, In tok (Py.split_ws raw) /\ Py.int tok = None) \/
  (exists indices,
      Forall2 (fun tok i => Py.int tok = Some (i + 1)%Z)
              (Py.split_ws raw) indices /\
      ~ Permutation indices (Py.range (List.length items))) ->
  reorder items w
  = Ok items
       (World rest
              (stdout w ++ reorder_banner items ++ [invalid_message ++ [LF]])
              (files w)).
Proof.
  intros Hin Hne Hbad.
  rewrite (@reorder_run _ _ _ _ Hin).
  assert (E : try_indices items (Py.strip raw) = None).
  { apply try_indices_none. rewrite split_ws_strip.
    destruct Hbad as [H | (indices & H & N)].
    - left. now apply parse_indices_none.
    - right. exists indices. split; [now apply parse_indices_some | exact N]. }
  unfold after_reorder, reorder_value, reorder_verdict. rewrite E.
  destruct (Py.strip raw); [congruence | reflexivity].
Qed.

(** C5. Whatever line the user enters, what [reorder] returns has the
    length of the tokens it was given and the same tokens with the same
    multiplicities: it is a permutation of them. *)
Theorem reorder_preserves_tokens
        (items : list str) (raw : str) (rest : list str) (w : world) :
  stdin w = raw :: rest ->
  exists out w',
    reorder items w = Ok out w' /\
    Permutation out items /\
    List.length out = List.length items.
Proof.
  intro Hin. rewrite (@reorder_run _ _ _ _ Hin).
  eexists _, _. split; [reflexivity|].
  pose proof (reorder_value_perm items raw) as P.
  split; [exact P | now apply Permutation_length].
Qed.

(** C8. When the line the user enters is empty once trimmed, [reorder]
    returns the tokens it was given, in their order; nothing but the
    listing and the prompt is written. *)
Theorem reorder_empty_response
        (items : list str) (raw : str) (rest : list str) (w : world) :
  stdin w = raw :: rest ->
  Py.strip raw = [] ->
  reorder items w
  = Ok items (World rest (stdout w ++ reorder_banner items) (files w)).
Proof.
  intros Hin He. rewrite (@reorder_run _ _ _ _ Hin).
  unfold after_reorder, reorder_value, reorder_verdict. rewrite He.
  now rewrite app_nil_r.
Qed.

(** A line of whitespace only is the empty response: the word list it
    would give is never looked at and no message is written. *)
Lemma reorder_blank_response
      (items : list str) (raw : str) (rest : list str) (w : world) :
  stdin w = raw :: rest -> all_space raw ->
  reorder items w
  = Ok items (World rest (stdout w ++ reorder_banner items) (files w)).
Proof.
  intros Hin Hs. rewrite (@reorder_run _ _ _ _ Hin).
  unfold after_reorder, reorder_value, reorder_verdict.
  rewrite (strip_all_space Hs). now rewrite app_nil_r.
Qed.

(** ** The parser and the formatter *)

Lemma lead_empty (lead tail : str) :
  all_space lead -> starts_clean (lead ++ tail) -> lead = [].
Proof.
  intros Hl Hc. destruct Hl as [|c lead Hs _]; [reflexivity|].
  simpl in Hc. congruence.
Qed.

(** C6. For every line: the parser keeps the text before the first [#];
    that text is a keyword, whitespace and a remainder, or has no
    remainder, and then there are no tokens; otherwise the tokens are
    the pieces of the remainder between its commas, each trimmed, the
    empty ones dropped, in their order.  Whitespace before the keyword
    is skipped; there is none in a line that does not begin with
    whitespace, as the lines the file processor passes.  Trimming
    removes whitespace at the two ends of a piece and nothing else.  The
    line [scanfor manual,internal # comment] gives [manual] and
    [internal]. *)
Theorem parse_directive_spec :
  (forall line : str,
      exists text comment,
        line = text ++ comment /\
        ~ In "#"%char text /\
        (comment = [] \/ exists c, comment = "#"%char :: c) /\
        ((exists lead kw trail,
             text = lead ++ kw ++ trail /\
             all_space lead /\ (starts_clean line -> lead = []) /\
             no_space kw /\ all_space trail /\
             parse_directive line = [])
         \/
         (exists lead kw sep rest pieces,
             text = lead ++ kw ++ sep ++ rest /\
             all_space lead /\ (starts_clean line -> lead = []) /\
             kw <> [] /\ no_space kw /\
             sep <> [] /\ all_space sep /\
             rest <> [] /\ starts_clean rest /\
             rest = Py.join (lit ",") pieces /\
             Forall (fun piece => ~ In ","%char piece) pieces /\
             parse_directive line = tokens_of_pieces pieces)))
  /\
  (forall piece : str,
      exists l r, piece = l ++ Py.strip piece ++ r /\
                  all_space l /\ all_space r /\ trimmed (Py.strip piece))
  /\
  parse_directive (lit "scanfor manual,internal # comment")
  = [lit "manual"; lit "internal"].
Proof.
  split; [|split; [exact strip_spec | reflexivity]].
  intro line.
  destruct (split1_head_spec "#" line) as (comment & E & Hn & Hc).
  set (text := Py.split1_head "#" line) in *.
  exists text, comment. split; [exact E|]. split; [exact Hn|].
  split; [exact Hc|].
  rewrite E, parse_directive_comment by assumption.
  destruct (text_shape text) as [A | [(lead & kw & trail & Et & A) | B]].
  - left. exists text, [], []. rewrite !app_nil_r.
    split; [reflexivity|]. split; [exact A|].
    split; [now apply lead_empty|].
    split; [constructor|]. split; [constructor|].
    replace text with (text ++ [] ++ []) by (now rewrite !app_nil_r).
    apply parse_directive_no_remainder;
      [now rewrite !app_nil_r | exact A | constructor | constructor].
  - left. destruct A as (Hl & Hne & Hk & Ht). exists lead, kw, trail.
    split; [exact Et|]. split; [exact Hl|]. rewrite Et in *.
    split; [rewrite <- app_assoc; now apply lead_empty|].
    repeat (split; [assumption|]).
    now apply parse_directive_no_remainder.
  - right. destruct B as (lead & kw & sep & rest & Et & Hl & Hne & Hk
                          & Hs & Hsep & Hr & Hc').
    exists lead, kw, sep, rest, (Py.split_chr "," rest).
    split; [exact Et|]. split; [exact Hl|]. rewrite Et in *.
    split; [rewrite <- app_assoc; now apply lead_empty|].
    repeat (split; [assumption|]).
    split; [symmetry; apply (join_split_chr "," rest)|].
    split.
    + eapply Forall_impl; [|apply split_chr_pieces]. simpl. tauto.
    + now apply parse_directive_remainder.
Qed.

(** C7. For every line and every directive name, the line the formatter
    makes of the tokens of the line parses to those tokens again, in the
    same order: the parser is a left inverse of the formatter on the
    token lists the parser produces. *)
Theorem parse_format_roundtrip (line name : str) :
  is_directive_name name ->
  parse_directive (format_directive name (parse_directive line))
  = parse_directive line.
Proof.
  intro K. destruct (directive_name_shape K) as (Hne & Hns & Hnh & _).
  apply parse_format; try assumption. apply parse_directive_clean.
Qed.

(** ** The file processor *)

(** *** Newlines *)

Lemma newline_only_suffix (l s : str) :
  newline_at_end_only (l ++ s) -> newline_at_end_only s.
Proof.
  intros (body & tail & E & Hb & Ht).
  apply app_eq_app in E. destruct E as (m & [[-> ->] | [-> ->]]).
  - exists [], s. split; [reflexivity|]. split; [intros []|].
    apply Forall_app in Ht. tauto.
  - exists m, tail. split; [reflexivity|]. split; [|exact Ht].
    intro K. apply Hb. apply in_or_app. now right.
Qed.

Lemma newline_only_prefix (s r : str) :
  newline_at_end_only (s ++ r) -> newline_at_end_only s.
Proof.
  intros (body & tail & E & Hb & Ht).
  apply app_eq_app in E. destruct E as (m & [[-> ->] | [-> ->]]).
  - exists body, m. split; [reflexivity|]. split; [exact Hb|].
    apply Forall_app in Ht. tauto.
  - exists s, []. split; [now rewrite app_nil_r|]. split; [|constructor].
    intro K. apply Hb. apply in_or_app. now left.
Qed.

Lemma newline_only_infix (l s r : str) :
  newline_at_end_only (l ++ s ++ r) -> newline_at_end_only s.
Proof.
  intro H. apply newline_only_suffix in H. now apply newline_only_prefix in H.
Qed.

Lemma app_split_notin (c : ascii) (x y b t : str) :
  x ++ c :: y = b ++ t -> ~ In c b -> exists z, t = z ++ c :: y.
Proof.
  revert x. induction b as [|d b IH]; intros x E Hn.
  - exists x. now rewrite E.
  - destruct x as [|e x]; simpl in E; inversion E; subst.
    + exfalso. apply Hn. now left.
    + apply (IH x); [assumption|]. intro K. apply Hn. now right.
Qed.

Lemma ends_with_space (u x : str) :
  x <> [] -> all_space x -> ~ starts_clean (rev (u ++ x)).
Proof.
  intros Hne Hs Hc. rewrite rev_app_distr in Hc.
  assert (Hr : all_space (rev x)) by (now apply Forall_rev).
  destruct (rev x) as [|c r] eqn:E.
  - apply Hne. apply (f_equal (@rev ascii)) in E.
    now rewrite rev_involutive in E.
  - inversion Hr; subst. simpl in Hc. congruence.
Qed.

(** Trimming leaves no newline when the newlines are at the end. *)
Lemma strip_no_newline (s : str) :
  newline_at_end_only s -> ~ In LF (Py.strip s).
Proof.
  intros (body & tail & E & Hb & Ht) K.
  destruct (strip_spec s) as (l & r & Es & _ & _ & [_ Hend]).
  apply in_split in K. destruct K as (u & v & Ku).
  rewrite Ku in Es, Hend.
  assert (E' : (l ++ u) ++ LF :: (v ++ r) = body ++ tail).
  { rewrite <- E, Es, <- !app_assoc. reflexivity. }
  destruct (@app_split_notin _ _ _ _ _ E' Hb) as (z & ->).
  apply Forall_app in Ht. destruct Ht as [_ Ht].
  change (LF :: v ++ r) with ((LF :: v) ++ r) in Ht.
  apply Forall_app in Ht. destruct Ht as [Ht _].
  apply (@ends_with_space u (LF :: v)); [discriminate | exact Ht | exact Hend].
Qed.

Lemma split_chr_head_prefix (sep : ascii) (s h : str) (tl : list str) :
  Py.split_chr sep s = h :: tl -> exists r, s = h ++ r.
Proof.
  revert h tl. induction s as [|c s IH]; intros h tl E; simpl in E.
  - inversion E. exists []. reflexivity.
  - destruct (chr_eqb c sep).
    + inversion E. exists (c :: s). reflexivity.
    + destruct (Py.split_chr sep s) as [|h' tl'] eqn:S.
      * inversion E. exists s. reflexivity.
      * inversion E; subst. destruct (IH _ _ eq_refl) as (r & ->).
        exists r. reflexivity.
Qed.

(** Every piece is a part of the text, as it stands there. *)
Lemma split_chr_infix (sep : ascii) (s piece : str) :
  In piece (Py.split_chr sep s) -> exists l r, s = l ++ piece ++ r.
Proof.
  revert piece. induction s as [|c s IH]; intros piece H; simpl in H.
  - destruct H as [<- | []]. exists [], []. reflexivity.
  - destruct (chr_eqb c sep).
    + destruct H as [<- | H].
      * exists [], (c :: s). reflexivity.
      * destruct (IH _ H) as (l & r & ->). exists (c :: l), r. reflexivity.
    + destruct (Py.split_chr sep s) as [|h tl] eqn:S.
      * destruct H as [<- | []]. exists [], s. reflexivity.
      * destruct H as [<- | H].
        -- destruct (@split_chr_head_prefix _ _ _ _ S) as (r & ->).
           exists [], r. reflexivity.
        -- destruct (IH piece (or_intror H)) as (l & r & ->).
           exists (c :: l), r. reflexivity.
Qed.

(** The tokens of a line whose newlines are at its end hold none. *)
Lemma parse_directive_no_newline (line token : str) :
  newline_at_end_only line -> In token (parse_directive line) ->
  ~ In LF token.
Proof.
  intros Q H.
  destruct (parse_directive_cases line)
    as [E | (before & rest & after & E & _ & P)].
  - rewrite E in H. destruct H.
  - rewrite P in H. unfold tokens_of_pieces in H.
    apply filter_In in H. destruct H as [H _].
    apply in_map_iff in H. destruct H as (piece & <- & Hp).
    apply strip_no_newline.
    destruct (@split_chr_infix _ _ _ Hp) as (l & r & Er).
    rewrite E in Q. apply newline_only_infix in Q.
    rewrite Er in Q. now apply newline_only_infix in Q.
Qed.

Lemma uncomment_newline_only (line : str) :
  newline_at_end_only line -> newline_at_end_only (uncomment line).
Proof.
  intro Q. destruct (uncomment_spec line) as (hashes & spaces & E & _).
  rewrite E, app_assoc in Q. now apply newline_only_suffix in Q.
Qed.

(** The lines [readlines] returns have their newline at the end. *)
Lemma lines_from_newline_only (cur s : str) :
  ~ In LF cur -> Forall newline_at_end_only (lines_from cur s).
Proof.
  revert cur. induction s as [|c s IH]; intros cur Hc; simpl.
  - destruct cur as [|d cur]; constructor; [|constructor].
    exists (rev (d :: cur)), []. split; [now rewrite app_nil_r|].
    split; [|constructor]. intro K. apply in_rev in K. contradiction.
  - destruct (chr_eqb c LF) eqn:E.
    + apply chr_eqb_true in E. subst c. constructor.
      * exists (rev cur), [LF]. split; [reflexivity|]. split.
        -- intro K. apply in_rev in K. contradiction.
        -- apply LF_space.
      * apply IH. intros [].
    + apply chr_eqb_false in E. apply IH. intros [K|K]; [congruence|].
      contradiction.
Qed.

Lemma reorder_value_clean (items : list str) (raw : str) :
  Forall clean_token items -> Forall clean_token (reorder_value items raw).
Proof.
  intro H. rewrite Forall_forall in *. intros t Ht. apply H.
  now apply (Permutation_in _ (reorder_value_perm items raw)).
Qed.


Lemma formatted_no_newline (name : str) (tokens : list str) :
  ~ In LF name -> Forall (fun t => ~ In LF t) tokens ->
  ~ In LF (name ++ lit " " ++ Py.join (lit ",") tokens).
Proof.
  intros Hn Hc K. apply in_app_or in K. destruct K as [K|K];
    [contradiction|].
  apply in_app_or in K. destruct K as [[K|[]]|K]; [discriminate|].
  apply join_In in K. destruct K as [[K|[]] | (t & Ht & K)];
    [discriminate|].
  rewrite Forall_forall in Hc. now apply (Hc _ Ht).
Qed.


Lemma lines_from_concat (cur s : str) :
  List.concat (lines_from cur s) = rev cur ++ s.
Proof.
  revert cur. induction s as [|c s IH]; intro cur; simpl.
  - destruct cur; simpl; now rewrite ?app_nil_r.
  - destruct (chr_eqb c LF).
    + cbn [List.concat]. rewrite IH. simpl. now rewrite <- app_assoc.
    + rewrite IH. simpl. now rewrite <- app_assoc.
Qed.

Lemma universal_newlines_id (s : str) :
  ~ In CR s -> universal_newlines s = s.
Proof.
  induction s as [|c s IH]; intro H; [reflexivity|].
  cbn [universal_newlines].
  destruct (chr_eqb c CR) eqn:E.
  - apply chr_eqb_true in E. exfalso. apply H. now left.
  - rewrite IH; [reflexivity|]. intro K. apply H. now right.
Qed.

(** C3. A line is detected exactly when it matches
    [^#*\s*(scanfor|showtools)\b] with the letter case ignored.  A line
    that is not detected, or is detected and has no tokens, is passed on
    as it was read, and the file that is written has it at its place.
    The lines that are read are the consecutive parts of the text of the
    file with its line ends turned into newlines: the very text of the
    file, byte for byte, when it holds no carriage return. *)
Theorem directive_detection_and_passthrough :
  (forall line : str, detected line = true <-> spec_directive_line line)
  /\
  (forall (line : str) (w : world),
      detected line = false \/ parse_directive (uncomment line) = [] ->
      process_line line w = Ok line w)
  /\
  (forall (path text : str) (w : world),
      files w path = Some text ->
      (count_rewritten (lines_from [] (universal_newlines text))
       <= List.length (stdin w))%nat ->
      exists out w',
        process_file path w = Ok tt w' /\
        files w' path = Some (List.concat out) /\
        Forall2 (fun l o =>
                   detected l = false \/ parse_directive (uncomment l) = [] ->
                   o = l)
                (lines_from [] (universal_newlines text)) out /\
        List.concat (lines_from [] (universal_newlines text))
        = universal_newlines text /\
        (~ In CR text -> universal_newlines text = text)).
Proof.
  split; [exact detected_iff|]. split.
  - intros line w H. apply process_line_kept. now apply rewritten_false.
  - intros path text w Hf Hn.
    destruct (@process_file_run _ _ _ Hf Hn) as (out & w' & E & F & A).
    exists out, w'. split; [exact E|]. split; [exact F|].
    split; [|split].
    + eapply Forall2_impl; [|exact A]. cbv beta.
      intros l o H K. apply H. now apply rewritten_false.
    + apply (lines_from_concat [] (universal_newlines text)).
    + apply universal_newlines_id.
Qed.

(** C9. On a file whose only line is
    [scanfor internal,hdbios,biosexternal], the user entering [2 1 3],
    [process_file] writes the file with the line
    [scanfor hdbios,internal,biosexternal]. *)
Theorem end_to_end_scanfor (path : str) (rest : list str) (w : world) :
  files w path = Some (lit "scanfor internal,hdbios,biosexternal" ++ [LF]) ->
  stdin w = lit "2 1 3" :: rest ->
  exists w',
    process_file path w = Ok tt w' /\
    files w' path = Some (lit "scanfor hdbios,internal,biosexternal" ++ [LF]) /\
    stdin w' = rest.
Proof.
  intros Hf Hin.
  set (L := lit "scanfor internal,hdbios,biosexternal" ++ [LF]) in *.
  unfold process_file, bind, readlines. rewrite Hf.
  change (lines_from [] (universal_newlines L)) with [L].
  unfold process_lines. cbn [map_io]. unfold bind.
  rewrite (@process_line_rewritten L (lit "scanfor")
             [lit "internal"; lit "hdbios"; lit "biosexternal"]
             (lit "2 1 3") rest w eq_refl eq_refl
             ltac:(discriminate) Hin).
  unfold ret, writelines. eexists. split; [reflexivity|].
  cbn [files stdin after_reorder]. unfold path_eqb. rewrite str_eqb_refl.
  split; reflexivity.
Qed.

(** C10. The name at the head of a rewritten line is the text the
    pattern matched: it stands in the line as it is written there, after
    the comment marks and the indentation, it is [scanfor] or
    [showtools] once put in lower case, and the rewritten line begins
    with it and a space.  The line [#ShowTools shell,about # tools],
    kept in its order, becomes [ShowTools shell,about]. *)
Theorem rewritten_line_keeps_keyword_case :
  (forall line name : str,
      directive_pattern_match (uncomment line) = Some name ->
      is_directive_name name /\
      (exists hashes spaces after,
          line = hashes ++ spaces ++ name ++ after /\
          Forall (eq "#"%char) hashes /\ all_space spaces) /\
      (forall (item : str) (items : list str) (raw : str)
              (rest : list str) (w : world),
          parse_directive (uncomment line) = item :: items ->
          stdin w = raw :: rest ->
          exists tail w',
            process_line line w = Ok (name ++ lit " " ++ tail) w'))
  /\
  (forall (rest : list str) (w : world),
      stdin w = [] :: rest ->
      exists w',
        process_line (lit "#ShowTools shell,about # tools" ++ [LF]) w
        = Ok (lit "ShowTools shell,about" ++ [LF]) w').
Proof.
  split.
  - intros line name D.
    destruct (directive_pattern_sound _ D) as (after & E & K & _).
    destruct (uncomment_spec line) as (hashes & spaces & L & Hh & Hs).
    split; [exact K|]. split.
    + exists hashes, spaces, after. rewrite <- E. auto.
    + intros item items raw rest w P Hin.
      assert (Hne : item :: items <> []) by discriminate.
      eexists _, _.
      rewrite (@process_line_rewritten _ _ _ _ _ _ D P Hne Hin).
      unfold format_directive. reflexivity.
  - intros rest w Hin. eexists.
    rewrite (@process_line_rewritten
               (lit "#ShowTools shell,about # tools" ++ [LF])
               (lit "ShowTools") [lit "shell"; lit "about"]
               [] rest w eq_refl eq_refl ltac:(discriminate) Hin).
    reflexivity.
Qed.

(** ** The theorems at work *)

Lemma reorder_applies_permutation_witness :
  reorder [lit "internal"; lit "hdbios"; lit "biosexternal"]
          (console [lit "2 1 3"])
  = Ok [lit "hdbios"; lit "internal"; lit "biosexternal"]
       (World [] (reorder_banner
                    [lit "internal"; lit "hdbios"; lit "biosexternal"])
              (fun _ => None)).
Proof.
  apply (@reorder_applies_permutation
           [lit "internal"; lit "hdbios"; lit "biosexternal"]
           (lit "2 1 3") [2; 1; 3]%nat [] (console [lit "2 1 3"])).
  - reflexivity.
  - repeat constructor.
  - apply perm_swap.
Defined.

Lemma reorder_invalid_response_witness :
  reorder [lit "internal"; lit "hdbios"] (console [lit "2 x"])
  = Ok [lit "internal"; lit "hdbios"]
       (World [] (reorder_banner [lit "internal"; lit "hdbios"]
                  ++ [invalid_message ++ [LF]])
              (fun _ => None)).
Proof.
  apply (@reorder_invalid_response
           [lit "internal"; lit "hdbios"] (lit "2 x") []
           (console [lit "2 x"])).
  - reflexivity.
  - discriminate.
  - left. exists (lit "x"). split; [right; left; reflexivity | reflexivity].
Defined.

Lemma reorder_preserves_tokens_witness :
  exists out w',
    reorder [lit "internal"; lit "hdbios"] (console [lit "2 1"])
    = Ok out w' /\
    Permutation out [lit "internal"; lit "hdbios"] /\
    List.length out = 2%nat.
Proof.
  apply (@reorder_preserves_tokens
           [lit "internal"; lit "hdbios"] (lit "2 1") []
           (console [lit "2 1"])).
  reflexivity.
Defined.

Lemma reorder_empty_response_witness :
  reorder [lit "internal"; lit "hdbios"] (console [lit "  "])
  = Ok [lit "internal"; lit "hdbios"]
       (World [] (reorder_banner [lit "internal"; lit "hdbios"])
              (fun _ => None)).
Proof.
  apply (@reorder_empty_response
           [lit "internal"; lit "hdbios"] (lit "  ") []
           (console [lit "  "])); reflexivity.
Defined.

Lemma parse_directive_spec_witness :
  starts_clean (lit "scanfor manual, internal,, # comment") /\
  exists text comment,
    lit "scanfor manual, internal,, # comment" = text ++ comment /\
    ~ In "#"%char text /\
    (comment = [] \/ exists c, comment = "#"%char :: c) /\
    ((exists lead kw trail,
         text = lead ++ kw ++ trail /\
         all_space lead /\
         (starts_clean (lit "scanfor manual, internal,, # comment") ->
          lead = []) /\
         no_space kw /\ all_space trail /\
         parse_directive (lit "scanfor manual, internal,, # comment") = [])
     \/
     (exists lead kw sep rest pieces,
         text = lead ++ kw ++ sep ++ rest /\
         all_space lead /\
         (starts_clean (lit "scanfor manual, internal,, # comment") ->
          lead = []) /\
         kw <> [] /\ no_space kw /\
         sep <> [] /\ all_space sep /\
         rest <> [] /\ starts_clean rest /\
         rest = Py.join (lit ",") pieces /\
         Forall (fun piece => ~ In ","%char piece) pieces /\
         parse_directive (lit "scanfor manual, internal,, # comment")
         = tokens_of_pieces pieces)).
Proof.
  split; [reflexivity|].
  exact (proj1 parse_directive_spec
               (lit "scanfor manual, internal,, # comment")).
Defined.

Lemma parse_format_roundtrip_witness :
  parse_directive
    (format_directive (lit "ScanFor")
       (parse_directive (lit "scanfor manual, internal,, # comment")))
  = [lit "manual"; lit "internal"].
Proof.
  apply (@parse_format_roundtrip
           (lit "scanfor manual, internal,, # comment") (lit "ScanFor")).
  left. reflexivity.
Defined.


Lemma directive_detection_and_passthrough_witness :
  exists out w',
    process_file (lit "refind.conf")
                 (session (lit "refind.conf")
                          (lit "# timeout 20" ++ [LF] ++ lit "showtools" ++ [LF])
                          [])
    = Ok tt w' /\
    files w' (lit "refind.conf") = Some (List.concat out) /\
    Forall2 (fun l o =>
               detected l = false \/ parse_directive (uncomment l) = [] ->
               o = l)
            [lit "# timeout 20" ++ [LF]; lit "showtools" ++ [LF]] out /\
    List.concat [lit "# timeout 20" ++ [LF]; lit "showtools" ++ [LF]]
    = lit "# timeout 20" ++ [LF] ++ lit "showtools" ++ [LF] /\
    (~ In CR (lit "# timeout 20" ++ [LF] ++ lit "showtools" ++ [LF]) ->
     universal_newlines (lit "# timeout 20" ++ [LF] ++ lit "showtools" ++ [LF])
     = lit "# timeout 20" ++ [LF] ++ lit "showtools" ++ [LF]).
Proof.
  apply (proj2 (proj2 directive_detection_and_passthrough)
           (lit "refind.conf")
           (lit "# timeout 20" ++ [LF] ++ lit "showtools" ++ [LF])
           (session (lit "refind.conf")
                    (lit "# timeout 20" ++ [LF] ++ lit "showtools" ++ [LF])
                    [])).
  - reflexivity.
  - apply Nat.le_refl.
Defined.

(** A line that is not detected and ends in carriage return and newline
    is not in the written file as it was in the file: the carriage
    return is gone. *)
Lemma undetected_line_loses_carriage_return :
  detected (lit "timeout 20" ++ [CR; LF]) = false /\
  exists w',
    process_file (lit "refind.conf")
      (session (lit "refind.conf") (lit "timeout 20" ++ [CR; LF]) [])
    = Ok tt w' /\
    files w' (lit "refind.conf") = Some (lit "timeout 20" ++ [LF]) /\
    lit "timeout 20" ++ [LF] <> lit "timeout 20" ++ [CR; LF].
Proof.
  split; [reflexivity|]. eexists. split; [reflexivity|].
  split; [reflexivity | discriminate].
Defined.

Lemma end_to_end_scanfor_witness :
  exists w',
    process_file (lit "refind.conf")
      (session (lit "refind.conf")
               (lit "scanfor internal,hdbios,biosexternal" ++ [LF])
               [lit "2 1 3"])
    = Ok tt w' /\
    files w' (lit "refind.conf")
    = Some (lit "scanfor hdbios,internal,biosexternal" ++ [LF]) /\
    stdin w' = [].
Proof.
  apply (@end_to_end_scanfor (lit "refind.conf") []
           (session (lit "refind.conf")
                    (lit "scanfor internal,hdbios,biosexternal" ++ [LF])
                    [lit "2 1 3"])); reflexivity.
Defined.

Lemma rewritten_line_keeps_keyword_case_witness :
  exists w',
    process_line (lit "#ShowTools shell,about # tools" ++ [LF]) (console [[]])
    = Ok (lit "ShowTools shell,about" ++ [LF]) w'.
Proof.
  apply (proj2 rewritten_line_keeps_keyword_case [] (console [[]])).
  reflexivity.
Defined.

(** A line of one space is not empty, its (absent) words give no index,
    which is not a permutation of [0 .. 0]; yet it is the keep-as-is
    answer, and the invalid-input message is not written. *)
Lemma blank_response_is_silent :
  lit " " <> [] /\
  (exists indices,
      Forall2 (fun tok i => Py.int tok = Some (i + 1)%Z)
              (Py.split_ws (lit " ")) indices /\
      ~ Permutation indices (Py.range (List.length [lit "internal"]))) /\
  exists w',
    reorder [lit "internal"] (console [lit " "]) = Ok [lit "internal"] w' /\
    ~ In (invalid_message ++ [LF]) (stdout w').
Proof.
  split; [discriminate|]. split.
  - exists []. split; [constructor|]. intro P.
    apply Permutation_length in P. discriminate.
  - eexists. split; [reflexivity|].
    cbn [stdout]. intro H. repeat (destruct H as [H|H]; [discriminate|]).
    exact H.
Defined.

(** ** Responses written in decimal *)

Lemma digit_not_sign (c : ascii) :
  in_range 48 57 c = true ->
  Py.is_int_space c = false /\ chr_eqb c "-" = false /\
  chr_eqb c "+" = false /\ is_space c = false.
Proof.
  intro H.
  pose proof (ascii_cases
    (fun c => implb (in_range 48 57 c)
                (negb (Py.is_int_space c) && negb (chr_eqb c "-")
                 && negb (chr_eqb c "+") && negb (is_space c)))
    eq_refl c) as A.
  cbv beta in A. rewrite H in A. cbn [implb] in A.
  repeat (apply andb_prop in A; destruct A as [A ?]).
  repeat split; now apply negb_true_iff.
Qed.

Lemma uint_digits (d : Decimal.uint) :
  Forall (fun c => in_range 48 57 c = true)
         (lit (NilEmpty.string_of_uint d)).
Proof.
  induction d; simpl; constructor; (reflexivity || assumption).
Qed.

(** [int_digits] reads a digit string as [Nat.of_uint] does. *)
Lemma int_digits_uint (d : Decimal.uint) (acc : nat) (b : bool) :
  d <> Decimal.Nil \/ b = true ->
  Py.int_digits (Z.of_nat acc) b (lit (NilEmpty.string_of_uint d))
  = Some (Z.of_nat (Nat.of_uint_acc d acc)).
Proof.
  revert acc b.
  induction d as [|d IH|d IH|d IH|d IH|d IH|d IH|d IH|d IH|d IH|d IH];
    intros acc b H;
    [destruct H as [H | ->]; [congruence | reflexivity] | ..];
    cbn [NilEmpty.string_of_uint lit list_ascii_of_string Py.int_digits
         Nat.of_uint_acc];
    match goal with
    | |- context [Py.digit_val ?c] =>
        change (Py.digit_val c) with (Some (Z.of_N (code c) - 48)%Z)
    end;
    cbv iota; rewrite <- (IH _ true) by (now right); f_equal;
    rewrite ?Nat2Z.inj_succ, Nat.tail_mul_spec, Nat2Z.inj_mul;
    cbn [code N_of_ascii N_of_digits]; simpl Z.of_N; lia.
Qed.

Lemma to_uint_nonnil (n : nat) : Nat.to_uint n <> Decimal.Nil.
Proof.
  intro H. pose proof (DecimalNat.Unsigned.of_to n) as E.
  rewrite H in E. simpl in E. subst n. discriminate.
Qed.

Lemma digit_count_digits (s : str) :
  Forall (fun c => in_range 48 57 c = true) s ->
  Py.digit_count s = List.length s.
Proof.
  unfold Py.digit_count. induction 1 as [|c s Hc _ IH]; [reflexivity|].
  cbn [filter]. rewrite Hc. cbn [List.length]. now rewrite IH.
Qed.

Lemma int_literal_digits (s : str) :
  Forall (fun c => in_range 48 57 c = true) s ->
  (List.length s <= Py.int_max_str_digits)%nat ->
  Py.int_literal s = Py.int_digits 0 false s.
Proof.
  intros Hd Hl. unfold Py.int_literal.
  destruct (Py.int_digits 0 false s); [|reflexivity].
  rewrite (digit_count_digits Hd).
  apply Nat.ltb_ge in Hl. now rewrite Hl.
Qed.

(** A literal of more digits than the limit is no integer for [int]. *)
Lemma int_literal_oversize (s : str) :
  (Py.int_max_str_digits < Py.digit_count s)%nat ->
  Py.int_literal s = None.
Proof.
  intro H. unfold Py.int_literal.
  destruct (Py.int_digits 0 false s); [|reflexivity].
  apply Nat.ltb_lt in H. now rewrite H.
Qed.

Lemma int_of_digits (s : str) :
  s <> [] -> Forall (fun c => in_range 48 57 c = true) s ->
  (List.length s <= Py.int_max_str_digits)%nat ->
  Py.int s = Py.int_digits 0 false s.
Proof.
  intros Hne Hd Hl. rewrite <- (int_literal_digits Hd Hl). unfold Py.int.
  assert (Hh : forall t, t <> [] ->
               Forall (fun c => in_range 48 57 c = true) t ->
               Py.drop_while Py.is_int_space t = t).
  { intros t Ht Hf. apply drop_while_id. destruct Hf as [|c t Hc _];
      [congruence|]. now apply digit_not_sign. }
  rewrite (Hh s Hne Hd).
  rewrite Hh; [| intro E; apply Hne;
                 apply (f_equal (@rev ascii)) in E;
                 now rewrite rev_involutive in E
               | now apply Forall_rev].
  rewrite rev_involutive.
  destruct Hd as [|c s Hc _]; [congruence|].
  destruct (digit_not_sign c Hc) as (_ & -> & -> & _). reflexivity.
Qed.

(** [int(str(n)) == n], for a number that [int] converts. *)
Lemma int_str_of_nat (n : nat) :
  (List.length (Py.str_of_nat n) <= Py.int_max_str_digits)%nat ->
  Py.int (Py.str_of_nat n) = Some (Z.of_nat n).
Proof.
  unfold Py.str_of_nat. intro Hl. rewrite int_of_digits.
  - change 0%Z with (Z.of_nat 0).
    rewrite int_digits_uint by (left; apply to_uint_nonnil).
    change (Nat.of_uint_acc (Nat.to_uint n) 0)
      with (Nat.of_uint (Nat.to_uint n)).
    now rewrite DecimalNat.Unsigned.of_to.
  - pose proof (to_uint_nonnil n) as H.
    destruct (Nat.to_uint n); (congruence || discriminate).
  - apply uint_digits.
  - exact Hl.
Qed.

Lemma length_string_of_uint (d : Decimal.uint) :
  List.length (lit (NilEmpty.string_of_uint d)) = Decimal.nb_digits d.
Proof.
  induction d; simpl; congruence.
Qed.

Lemma nb_digits_succ (d : Decimal.uint) :
  (Decimal.nb_digits d <= Decimal.nb_digits (Decimal.Little.succ d))%nat.
Proof.
  induction d; simpl; lia.
Qed.

(** A smaller number is not written with more digits. *)
Lemma str_of_nat_length_mono (p n : nat) :
  (p <= n)%nat ->
  (List.length (Py.str_of_nat p) <= List.length (Py.str_of_nat n))%nat.
Proof.
  unfold Py.str_of_nat. rewrite !length_string_of_uint.
  rewrite !DecimalNat.Unsigned.to_uint_alt, !DecimalFacts.nb_digits_rev.
  induction 1 as [|n _ IH]; [apply le_n|].
  etransitivity; [exact IH|]. cbn [DecimalNat.Unsigned.to_lu].
  apply nb_digits_succ.
Qed.

Lemma str_of_nat_word (n : nat) :
  Py.str_of_nat n <> [] /\ no_space (Py.str_of_nat n).
Proof.
  unfold Py.str_of_nat. split.
  - pose proof (to_uint_nonnil n) as H.
    destruct (Nat.to_uint n); (congruence || discriminate).
  - eapply Forall_impl; [|apply uint_digits]. intros c Hc.
    now apply digit_not_sign.
Qed.

Lemma split_ws_from_word (cur word s : str) :
  no_space word ->
  Py.split_ws_from cur (word ++ s) = Py.split_ws_from (rev word ++ cur) s.
Proof.
  intro H. revert cur. induction H as [|c word Hc _ IH]; intro cur;
    [reflexivity|].
  cbn [app Py.split_ws_from rev]. rewrite Hc, IH.
  now rewrite <- app_assoc.
Qed.

(** Words joined by single spaces split back into themselves. *)
Lemma split_ws_join (words : list str) :
  Forall (fun word => word <> [] /\ no_space word) words ->
  Py.split_ws (Py.join (lit " ") words) = words.
Proof.
  unfold Py.split_ws.
  induction 1 as [|x l [Hx Hs] Hl IH]; [reflexivity|].
  assert (R : rev x <> []).
  { intro E. apply Hx. apply (f_equal (@rev ascii)) in E.
    now rewrite rev_involutive in E. }
  destruct l as [|y l].
  - cbn [Py.join]. rewrite <- (app_nil_r x) at 1.
    rewrite split_ws_from_word by exact Hs. rewrite app_nil_r.
    cbn [Py.split_ws_from]. destruct (rev x) eqn:E; [congruence|].
    rewrite <- E. now rewrite rev_involutive.
  - rewrite join_cons2. rewrite split_ws_from_word by exact Hs.
    rewrite app_nil_r. change (lit " ") with [" "%char].
    cbn [app Py.split_ws_from].
    change (is_space " ") with true. cbv iota.
    destruct (rev x) eqn:E; [congruence|].
    rewrite <- E, rev_involutive. f_equal. exact IH.
Qed.

(** The numbers of [P], written in decimal and separated by single
    spaces, are a response whose words are the integers of [P], as the
    statement of permutation correctness asks of a response, when none
    of them has more digits than [int] converts. *)
Lemma decimal_response_tokens (P : list nat) :
  Forall (fun p => (List.length (Py.str_of_nat p)
                    <= Py.int_max_str_digits)%nat) P ->
  Forall2 (fun tok p => Py.int tok = Some (Z.of_nat p))
          (Py.split_ws (Py.join (lit " ") (map Py.str_of_nat P))) P.
Proof.
  intro Hl. rewrite split_ws_join.
  - induction Hl as [|p P Hp _ IH]; simpl; constructor;
      [now apply int_str_of_nat | exact IH].
  - apply Forall_forall. intros word H. apply in_map_iff in H.
    destruct H as (n & <- & _). apply str_of_nat_word.
Qed.

(** Text mode at work: a line that ends in carriage return and newline
    is read with a newline only, and that is how it is written. *)
Lemma carriage_return_is_not_kept :
  exists w',
    process_file (lit "refind.conf")
      (session (lit "refind.conf") (lit "timeout 20" ++ [CR; LF]) [])
    = Ok tt w' /\
    files w' (lit "refind.conf") = Some (lit "timeout 20" ++ [LF]).
Proof.
  eexists. split; reflexivity.
Qed.

(** * Further properties of the program *)

(** ** The loop of [process_file], line by line *)

Lemma str_eqb_true (a b : str) : str_eqb a b = true <-> a = b.
Proof.
  revert b. induction a as [|x a IH]; intros [|y b]; simpl;
    try (split; intro; congruence).
  rewrite andb_true_iff, chr_eqb_true, IH. split.
  - intros [-> ->]. reflexivity.
  - intro H. inversion H. auto.
Qed.

Lemma map_io_cons_ok {A B} (f : A -> IO B) (x : A) (l : list A)
      (y : B) (ys : list B) (w w1 w2 : world) :
  f x w = Ok y w1 -> map_io f l w1 = Ok ys w2 ->
  map_io f (x :: l) w = Ok (y :: ys) w2.
Proof.
  intros H1 H2. cbn [map_io]. unfold bind. now rewrite H1, H2.
Qed.

Lemma map_io_cons_raise_head {A B} (f : A -> IO B) (x : A) (l : list A)
      (e : exn) (w w1 : world) :
  f x w = Raise e w1 -> map_io f (x :: l) w = Raise e w1.
Proof.
  intros H1. cbn [map_io]. unfold bind. now rewrite H1.
Qed.

Lemma map_io_cons_raise_tail {A B} (f : A -> IO B) (x : A) (l : list A)
      (y : B) (e : exn) (w w1 w2 : world) :
  f x w = Ok y w1 -> map_io f l w1 = Raise e w2 ->
  map_io f (x :: l) w = Raise e w2.
Proof.
  intros H1 H2. cbn [map_io]. unfold bind. now rewrite H1, H2.
Qed.

Lemma count_rewritten_cons (line : str) (lines : list str) :
  count_rewritten (line :: lines)
  = ((if rewritten line then 1 else 0) + count_rewritten lines)%nat.
Proof.
  unfold count_rewritten. simpl. now destruct (rewritten line).
Qed.

(** With a line to read for every rewritten line, the loop ends
    normally: it reads exactly these lines, leaves the files alone, and
    every line is kept or replaced as [line_update] tells. *)
Lemma process_lines_trace (lines : list str) (w : world) :
  (count_rewritten lines <= List.length (stdin w))%nat ->
  exists out w',
    process_lines lines w = Ok out w' /\
    files w' = files w /\
    stdin w' = skipn (count_rewritten lines) (stdin w) /\
    Forall2 line_update lines out.
Proof.
  revert w. induction lines as [|line lines IH]; intros w Hn.
  - exists [], w. repeat split. constructor.
  - rewrite count_rewritten_cons in *. unfold process_lines in *.
    destruct (rewritten line) eqn:R.
    + destruct (stdin w) as [|raw rest] eqn:Hin; [simpl in Hn; lia|].
      destruct (@rewritten_true _ R) as (name & D & Hne).
      pose proof (@process_line_rewritten _ _ _ _ _ _ D eq_refl Hne Hin)
        as Hp.
      destruct (IH (after_reorder (parse_directive (uncomment line)) raw
                                  rest w)) as (out & w' & E & F & I & A).
      { simpl in *. lia. }
      eexists _, w'. split; [eapply map_io_cons_ok; [exact Hp | exact E]|].
      split; [exact F|]. split; [exact I|].
      constructor; [|exact A]. right. exists name, raw. auto.
    + destruct (IH w Hn) as (out & w' & E & F & I & A).
      eexists _, w'.
      split; [eapply map_io_cons_ok; [exact (@process_line_kept _ w R) | exact E]|].
      split; [exact F|]. split; [exact I|].
      constructor; [|exact A]. left. auto.
Qed.

(** With fewer lines to read than rewritten lines, the loop raises
    [EOFError], and the files are as they were. *)
Lemma process_lines_eof (lines : list str) (w : world) :
  (List.length (stdin w) < count_rewritten lines)%nat ->
  exists w', process_lines lines w = Raise EOFError w' /\ files w' = files w.
Proof.
  revert w. induction lines as [|line lines IH]; intros w Hn.
  - unfold count_rewritten in Hn. simpl in Hn. lia.
  - rewrite count_rewritten_cons in Hn. unfold process_lines in *.
    destruct (rewritten line) eqn:R.
    + destruct (@rewritten_true _ R) as (name & D & Hne).
      destruct (stdin w) as [|raw rest] eqn:Hin.
      * destruct (@reorder_eof (parse_directive (uncomment line)) w Hin)
          as (w' & E & F).
        exists w'. split; [|exact F].
        apply map_io_cons_raise_head. unfold process_line. rewrite D.
        destruct (parse_directive (uncomment line)); [congruence|].
        unfold bind. now rewrite E.
      * pose proof (@process_line_rewritten _ _ _ _ _ _ D eq_refl Hne Hin)
          as Hp.
        destruct (IH (after_reorder (parse_directive (uncomment line)) raw
                                    rest w)) as (w' & E & F).
        { simpl in *. lia. }
        exists w'. split; [eapply map_io_cons_raise_tail; [exact Hp | exact E]|].
        exact F.
    + destruct (IH w Hn) as (w' & E & F). exists w'. split; [|exact F].
      eapply map_io_cons_raise_tail; [exact (@process_line_kept _ w R) | exact E].
Qed.

(** Lines that are all kept pass through the loop without any reading
    or writing. *)
Lemma process_lines_quiet (lines : list str) (w : world) :
  count_rewritten lines = 0%nat -> process_lines lines w = Ok lines w.
Proof.
  induction lines as [|line lines IH]; intro H; [reflexivity|].
  rewrite count_rewritten_cons in H. destruct (rewritten line) eqn:R;
    [discriminate|].
  unfold process_lines in *.
  eapply map_io_cons_ok; [exact (@process_line_kept _ w R) | exact (IH H)].
Qed.

(** ** Reading and writing the file *)

(** X1. When the file has more lines to rewrite than the console has
    lines to read, [process_file] raises [EOFError] and no file is
    changed: the file is written only after the last line was
    processed. *)
Theorem process_file_end_of_input (path text : str) (w : world) :
  files w path = Some text ->
  (List.length (stdin w)
   < count_rewritten (lines_from [] (universal_newlines text)))%nat ->
  exists w',
    process_file path w = Raise EOFError w' /\ files w' = files w.
Proof.
  intros Hf Hn. unfold process_file, bind, readlines. rewrite Hf.
  destruct (@process_lines_eof _ w Hn) as (w' & E & F).
  rewrite E. exists w'. auto.
Qed.

(** X2. A run of [process_file] that ends normally changes the file at
    [path] and no other file. *)
Theorem process_file_touches_one_file (path text : str) (w : world) :
  files w path = Some text ->
  (count_rewritten (lines_from [] (universal_newlines text))
   <= List.length (stdin w))%nat ->
  exists w',
    process_file path w = Ok tt w' /\
    forall p, p <> path -> files w' p = files w p.
Proof.
  intros Hf Hn. unfold process_file, bind, readlines. rewrite Hf.
  destruct (@process_lines_trace _ w Hn) as (out & w' & E & F & _).
  rewrite E. unfold writelines. eexists. split; [reflexivity|].
  intros p Hp. cbn [files]. unfold path_eqb.
  destruct (str_eqb p path) eqn:Q.
  - apply str_eqb_true in Q. contradiction.
  - now rewrite F.
Qed.

(** X3. A run of [process_file] that ends normally has read one line of
    the console for each line it rewrote, no more: what is left to read
    is the input without its first [count_rewritten] lines. *)
Theorem process_file_reads_one_line_per_directive
        (path text : str) (w : world) :
  files w path = Some text ->
  (count_rewritten (lines_from [] (universal_newlines text))
   <= List.length (stdin w))%nat ->
  exists w',
    process_file path w = Ok tt w' /\
    stdin w'
    = skipn (count_rewritten (lines_from [] (universal_newlines text)))
            (stdin w).
Proof.
  intros Hf Hn. unfold process_file, bind, readlines. rewrite Hf.
  destruct (@process_lines_trace _ w Hn) as (out & w' & E & _ & I & _).
  rewrite E. unfold writelines. eexists. split; [reflexivity|].
  exact I.
Qed.

(** X4. On a file none of whose lines is rewritten, [process_file]
    neither reads nor writes on the console, and writes the file back
    with the text it read: the text of the file with its line ends
    turned into newlines, the very text of the file when it holds no
    carriage return. *)
Theorem process_file_without_directives (path text : str) (w : world) :
  files w path = Some text ->
  count_rewritten (lines_from [] (universal_newlines text)) = 0%nat ->
  exists w',
    process_file path w = Ok tt w' /\
    files w' path = Some (universal_newlines text) /\
    stdin w' = stdin w /\ stdout w' = stdout w /\
    (~ In CR text -> files w' path = Some text).
Proof.
  intros Hf Hn. unfold process_file, bind, readlines. rewrite Hf.
  rewrite (process_lines_quiet _ w Hn). unfold writelines.
  eexists. split; [reflexivity|]. cbn [files stdin stdout].
  unfold path_eqb. rewrite str_eqb_refl, lines_from_concat.
  repeat split. intro H. now rewrite universal_newlines_id.
Qed.

(** ** The lines of the file that is written *)

Lemma prepend_app (a b : str) (ls : list str) :
  b <> [] -> prepend (a ++ b) ls = prepend a (prepend b ls).
Proof.
  intro Hb. destruct b as [|c b]; [congruence|].
  destruct ls as [|l ls]; simpl.
  - destruct (a ++ c :: b) eqn:E; [|reflexivity].
    apply app_eq_nil in E. destruct E; discriminate.
  - now rewrite <- app_assoc.
Qed.

Lemma lines_from_prepend (cur s : str) :
  lines_from cur s = prepend (rev cur) (lines_from [] s).
Proof.
  revert cur. induction s as [|c s IH]; intro cur.
  - simpl. destruct cur as [|d cur]; [reflexivity|].
    destruct (rev (d :: cur)) eqn:E; [|reflexivity].
    apply (f_equal (@rev ascii)) in E. rewrite rev_involutive in E.
    discriminate.
  - cbn [lines_from]. destruct (chr_eqb c LF); [reflexivity|].
    rewrite (IH (c :: cur)), (IH [c]). cbn [rev app].
    apply prepend_app. discriminate.
Qed.

Lemma lines_ok_prepend (c : ascii) (ls : list str) :
  c <> LF -> lines_ok ls -> lines_ok (prepend [c] ls).
Proof.
  intros Hc H. destruct H as [|body Hne Hb|body ls Hb Hl]; simpl.
  - apply lines_ok_last; [discriminate|]. intros [K|[]]. congruence.
  - apply lines_ok_last; [discriminate|]. intros [K|K]; [congruence|].
    contradiction.
  - apply (@lines_ok_cons (c :: body)); [|exact Hl].
    intros [K|K]; [congruence | contradiction].
Qed.

(** What [readlines] returns is well formed. *)
Lemma lines_from_ok (s : str) : lines_ok (lines_from [] s).
Proof.
  induction s as [|c s IH]; [constructor|].
  cbn [lines_from]. destruct (chr_eqb c LF) eqn:E.
  - apply chr_eqb_true in E. subst c.
    apply (@lines_ok_cons [] (lines_from [] s)); [intros [] | exact IH].
  - apply chr_eqb_false in E. rewrite lines_from_prepend.
    now apply lines_ok_prepend.
Qed.

Lemma lines_from_app (cur body rest : str) :
  ~ In LF body ->
  lines_from cur (body ++ rest) = lines_from (rev body ++ cur) rest.
Proof.
  revert cur. induction body as [|c body IH]; intros cur H; [reflexivity|].
  cbn [app lines_from].
  destruct (chr_eqb c LF) eqn:E.
  - apply chr_eqb_true in E. exfalso. apply H. now left.
  - rewrite IH by (intro K; apply H; now right).
    cbn [rev]. now rewrite <- app_assoc.
Qed.

(** Well-formed lines, written one after the other, are read back as
    they are. *)
Lemma lines_ok_readback (ls : list str) :
  lines_ok ls -> lines_from [] (List.concat ls) = ls.
Proof.
  induction 1 as [|body Hne Hb|body ls Hb Hl IH]; [reflexivity| |].
  - cbn [List.concat]. rewrite lines_from_app by exact Hb.
    rewrite !app_nil_r. cbn [lines_from].
    destruct (rev body) eqn:E.
    + apply (f_equal (@rev ascii)) in E. rewrite rev_involutive in E.
      contradiction.
    + now rewrite <- E, rev_involutive.
  - cbn [List.concat]. rewrite <- app_assoc.
    rewrite lines_from_app by exact Hb. rewrite app_nil_r.
    cbn [app lines_from]. rewrite chr_eqb_refl, IH.
    cbn [rev]. now rewrite rev_involutive.
Qed.

Lemma lines_ok_newline (ls : list str) :
  lines_ok ls -> Forall newline_at_end_only ls.
Proof.
  induction 1 as [|body Hne Hb|body ls Hb Hl IH]; constructor;
    try constructor; try assumption.
  - exists body, []. rewrite app_nil_r. repeat split; [exact Hb | constructor].
  - exists body, [LF]. repeat split; [exact Hb | apply LF_space].
Qed.

(** Every token is a part of the line, as it stands there. *)
Lemma parse_directive_infix (line token : str) :
  In token (parse_directive line) ->
  exists l r, line = l ++ token ++ r.
Proof.
  intro H.
  destruct (parse_directive_cases line)
    as [E | (before & rest & after & E & _ & P)].
  - rewrite E in H. destruct H.
  - rewrite P in H. unfold tokens_of_pieces in H.
    apply filter_In in H. destruct H as [H _].
    apply in_map_iff in H. destruct H as (piece & <- & Hp).
    destruct (@split_chr_infix _ _ _ Hp) as (l1 & r1 & Er).
    destruct (strip_spec piece) as (l2 & r2 & Ep & _).
    exists (before ++ l1 ++ l2), (r2 ++ r1 ++ after).
    rewrite E, Er. rewrite Ep at 1. now rewrite <- !app_assoc.
Qed.

Lemma rewritten_body_no_newline (l name raw : str) :
  newline_at_end_only l ->
  directive_pattern_match (uncomment l) = Some name ->
  ~ In LF (name ++ lit " "
           ++ Py.join (lit ",")
                (reorder_value (parse_directive (uncomment l)) raw)).
Proof.
  intros Q D.
  destruct (directive_pattern_sound _ D) as (after & _ & K & _).
  destruct (directive_name_shape K) as (_ & Hns & _ & _).
  apply formatted_no_newline.
  - intro N. unfold no_space in Hns. rewrite Forall_forall in Hns.
    apply Hns in N. discriminate.
  - apply Forall_forall. intros t Ht.
    apply (Permutation_in _ (reorder_value_perm _ raw)) in Ht.
    apply (@parse_directive_no_newline (uncomment l) t);
      [now apply uncomment_newline_only | exact Ht].
Qed.

(** The loop turns well-formed lines into well-formed lines. *)
Lemma line_update_ok (lines out : list str) :
  lines_ok lines -> Forall2 line_update lines out -> lines_ok out.
Proof.
  intros H. revert out.
  induction H as [|body Hne Hb|body ls Hb Hl IH]; intros out F.
  - inversion F. constructor.
  - inversion F as [|? o ? os U Fs]; subst. inversion Fs; subst.
    destruct U as [[_ ->] | (name & raw & D & _ & ->)].
    + now apply lines_ok_last.
    + unfold format_directive. rewrite !app_assoc.
      apply lines_ok_cons; [|constructor]. rewrite <- !app_assoc.
      apply rewritten_body_no_newline; [|exact D].
      exists body, []. rewrite app_nil_r.
      repeat split; [exact Hb | constructor].
  - inversion F as [|? o ? os U Fs]; subst.
    destruct U as [[_ ->] | (name & raw & D & _ & ->)].
    + apply lines_ok_cons; [exact Hb | now apply IH].
    + unfold format_directive. rewrite !app_assoc.
      apply lines_ok_cons; [|now apply IH]. rewrite <- !app_assoc.
      apply rewritten_body_no_newline; [|exact D].
      exists body, [LF]. repeat split; [exact Hb | apply LF_space].
Qed.

Lemma universal_newlines_no_CR_aux (s : str) :
  ~ In CR (universal_newlines s) /\
  forall c, ~ In CR (universal_newlines (c :: s)).
Proof.
  induction s as [|d s [IH1 IH2]].
  - split; [intros []|]. intros c. cbn [universal_newlines].
    destruct (chr_eqb c CR) eqn:E.
    + intros [K|[]]. discriminate.
    + apply chr_eqb_false in E. intros [K|[]]. congruence.
  - split; [apply IH2|]. intro c.
    change (universal_newlines (c :: d :: s))
      with (if chr_eqb c CR
            then LF :: (if chr_eqb d LF then universal_newlines s
                        else universal_newlines (d :: s))
            else c :: universal_newlines (d :: s)).
    destruct (chr_eqb c CR) eqn:E.
    + intros [K|K]; [discriminate|].
      destruct (chr_eqb d LF); [now apply IH1 | now apply (IH2 d)].
    + apply chr_eqb_false in E. intros [K|K]; [congruence|].
      now apply (IH2 d).
Qed.

(** No carriage return is left in a text that was read. *)
Lemma universal_newlines_no_CR (s : str) : ~ In CR (universal_newlines s).
Proof. apply universal_newlines_no_CR_aux. Qed.

Lemma lines_from_In (s l : str) (c : ascii) :
  In l (lines_from [] s) -> In c l -> In c s.
Proof.
  intros Hl Hc.
  rewrite <- (app_nil_l s). change [] with (rev (@nil ascii)) at 1.
  rewrite <- lines_from_concat. apply in_concat. eauto.
Qed.

(** A line the loop produces holds characters of the line it was made
    of, and the space, the commas and the newline of the formatter. *)
Lemma line_update_chars (l o : str) (c : ascii) :
  line_update l o -> In c o ->
  In c l \/ c = " "%char \/ c = ","%char \/ c = LF.
Proof.
  intros [[_ ->] | (name & raw & D & _ & ->)] H; [now left|].
  assert (U : forall x, In x (uncomment l) -> In x l).
  { intros x Hx. destruct (uncomment_spec l) as (h & sp & E & _).
    rewrite E. apply in_or_app. right. apply in_or_app. now right. }
  destruct (directive_pattern_sound _ D) as (after & E & _).
  unfold format_directive in H.
  apply in_app_or in H. destruct H as [H|H].
  { left. apply U. rewrite E. apply in_or_app. now left. }
  apply in_app_or in H. destruct H as [[H|[]]|H]; [now right; left|].
  apply in_app_or in H. destruct H as [H|[H|[]]]; [|now right; right; right].
  apply join_In in H. destruct H as [[H|[]] | (t & Ht & H)];
    [now right; right; left|].
  left. apply U.
  apply (Permutation_in _ (reorder_value_perm _ raw)) in Ht.
  destruct (parse_directive_infix _ _ Ht) as (a & b & ->).
  apply in_or_app. right. apply in_or_app. now left.
Qed.

Lemma line_update_no_CR (lines out : list str) :
  Forall2 line_update lines out ->
  Forall (fun l => ~ In CR l) lines ->
  ~ In CR (List.concat out).
Proof.
  induction 1 as [|l o lines out U _ IH]; intro H; [intros []|].
  inversion H as [|? ? Hl Hls]; subst.
  cbn [List.concat]. intro K. apply in_app_or in K.
  destruct K as [K|K]; [|now apply IH].
  destruct (@line_update_chars _ _ _ U K) as [A | [A | [A | A]]];
    [contradiction | discriminate..].
Qed.

(** X6. When [process_file] ends normally, the file it wrote, read
    again, gives exactly the lines the loop produced, and these answer
    the lines that were read one for one: each is the line read, kept
    as it was, or the line the formatter made of it.  The tool keeps the
    number and the order of the lines, and every line it rewrote is one
    line. *)
Theorem process_file_keeps_lines (path text : str) (w : world) :
  files w path = Some text ->
  (count_rewritten (lines_from [] (universal_newlines text))
   <= List.length (stdin w))%nat ->
  exists out w1 w',
    process_lines (lines_from [] (universal_newlines text)) w = Ok out w1 /\
    process_file path w = Ok tt w' /\
    files w' path = Some (List.concat out) /\
    Forall2 line_update (lines_from [] (universal_newlines text)) out /\
    List.length out
    = List.length (lines_from [] (universal_newlines text)) /\
    lines_from [] (universal_newlines (List.concat out)) = out.
Proof.
  intros Hf Hn.
  destruct (@process_lines_trace _ w Hn) as (out & w1 & E & _ & _ & A).
  exists out, w1. unfold process_file, bind, readlines. rewrite Hf, E.
  unfold writelines. eexists. split; [reflexivity|].
  split; [reflexivity|]. cbn [files]. unfold path_eqb.
  rewrite str_eqb_refl. split; [reflexivity|]. split; [exact A|]. split.
  - symmetry. exact (Forall2_length A).
  - rewrite universal_newlines_id.
    + apply lines_ok_readback.
      apply (@line_update_ok _ _ (lines_from_ok _) A).
    + apply (@line_update_no_CR _ _ A). apply Forall_forall.
      intros l Hl K. apply (universal_newlines_no_CR text).
      now apply (@lines_from_In _ _ _ Hl).
Qed.

(** ** A rewritten line is a directive line again *)

Lemma format_directive_detected (name : str) (tokens : list str) :
  is_directive_name name ->
  uncomment (format_directive name tokens) = format_directive name tokens /\
  directive_pattern_match (format_directive name tokens) = Some name.
Proof.
  intro K. unfold format_directive. split.
  - apply (@uncomment_directive [] [] name
             (lit " " ++ Py.join (lit ",") tokens ++ [LF]));
      [constructor | constructor | exact K].
  - apply directive_pattern_complete; [exact K | reflexivity].
Qed.

Lemma reorder_value_nonempty (items : list str) (raw : str) :
  items <> [] -> reorder_value items raw <> [].
Proof.
  intros H E. apply H.
  pose proof (reorder_value_perm items raw) as P. rewrite E in P.
  now apply Permutation_nil in P.
Qed.

(** X7. The line that replaces a directive line is a directive line
    with the same name, and its tokens, parsed again, are the tokens
    [reorder] returned, a permutation of the tokens of the line: no
    token is added, lost or changed by the rewriting. *)
Theorem process_line_preserves_directive
        (line name item : str) (items : list str)
        (raw : str) (rest : list str) (w : world) :
  directive_pattern_match (uncomment line) = Some name ->
  parse_directive (uncomment line) = item :: items ->
  stdin w = raw :: rest ->
  exists out tokens w',
    process_line line w = Ok out w' /\
    reorder (item :: items) w = Ok tokens w' /\
    directive_pattern_match (uncomment out) = Some name /\
    parse_directive (uncomment out) = tokens /\
    Permutation tokens (item :: items).
Proof.
  intros D P Hin.
  assert (Hne : item :: items <> []) by discriminate.
  destruct (directive_pattern_sound _ D) as (after & _ & K & _).
  destruct (directive_name_shape K) as (Hn & Hns & Hnh & _).
  destruct (format_directive_detected
              (reorder_value (item :: items) raw) K) as [U M].
  eexists _, _, _.
  split; [apply (@process_line_rewritten _ _ _ _ _ _ D P Hne Hin)|].
  split; [apply (@reorder_run _ _ _ _ Hin)|].
  rewrite U. split; [exact M|]. split.
  - apply parse_format; try assumption.
    apply reorder_value_clean. rewrite <- P. apply parse_directive_clean.
  - apply reorder_value_perm.
Qed.

(** X8. A second pass over a rewritten line in which the user keeps the
    order (an empty answer) returns that line as it is: the output of
    the tool is stable under the tool. *)
Theorem second_pass_keeps_rewritten_line
        (line name item : str) (items : list str)
        (raw raw2 : str) (rest : list str) (w : world) :
  directive_pattern_match (uncomment line) = Some name ->
  parse_directive (uncomment line) = item :: items ->
  stdin w = raw :: raw2 :: rest ->
  Py.strip raw2 = [] ->
  exists out w1 w2,
    process_line line w = Ok out w1 /\
    process_line out w1 = Ok out w2 /\
    stdin w2 = rest.
Proof.
  intros D P Hin He.
  assert (Hne : item :: items <> []) by discriminate.
  destruct (directive_pattern_sound _ D) as (after & _ & K & _).
  destruct (directive_name_shape K) as (Hn & Hns & Hnh & _).
  set (tokens := reorder_value (item :: items) raw).
  destruct (format_directive_detected tokens K) as [U M].
  assert (T : parse_directive (uncomment (format_directive name tokens))
              = tokens).
  { rewrite U. apply parse_format; try assumption.
    apply reorder_value_clean. rewrite <- P. apply parse_directive_clean. }
  assert (Tne : tokens <> []) by (now apply reorder_value_nonempty).
  assert (Hin1 : stdin (after_reorder (item :: items) raw (raw2 :: rest) w)
                 = raw2 :: rest) by reflexivity.
  rewrite <- U in M.
  exists (format_directive name tokens),
         (after_reorder (item :: items) raw (raw2 :: rest) w),
         (after_reorder tokens raw2 rest
            (after_reorder (item :: items) raw (raw2 :: rest) w)).
  split; [apply (@process_line_rewritten _ _ _ _ _ _ D P Hne Hin)|].
  split; [|reflexivity].
  rewrite (@process_line_rewritten _ _ _ _ _ _ M T Tne Hin1).
  unfold reorder_value at 1. now rewrite He.
Qed.

(** ** More on [reorder] *)

(** The value of [reorder] on a line whose words are a permutation of
    [1 .. N], and its silence. *)
Lemma reorder_value_of_permutation
      (items : list str) (raw : str) (P : list nat) :
  Forall2 (fun tok p => Py.int tok = Some (Z.of_nat p)) (Py.split_ws raw) P ->
  Permutation P (seq 1 (List.length items)) ->
  reorder_value items raw = map (fun p => nth (p - 1) items []) P /\
  reorder_verdict items raw = [].
Proof.
  intros Htok Hperm.
  pose proof (@one_based_tokens _ _ Htok) as T.
  pose proof (@one_based_indices _ _ Hperm) as Q.
  assert (E : try_indices items (Py.strip raw)
              = Some (map (fun p => Z.of_nat p - 1)%Z P)).
  { apply try_indices_some. rewrite split_ws_strip. auto. }
  unfold reorder_value, reorder_verdict. rewrite E.
  destruct (Py.strip raw) as [|c r] eqn:S.
  - rewrite <- split_ws_strip, S in Htok. inversion Htok; subst.
    apply Permutation_nil in Hperm.
    destruct items; [|discriminate]. auto.
  - now rewrite sel_one_based.
Qed.

Lemma zero_based_tokens (tokens : list str) (indices : list Z) :
  Forall (fun i => (0 <= i)%Z) indices ->
  Forall2 (fun tok i => Py.int tok = Some (i + 1)%Z) tokens indices ->
  Forall2 (fun tok p => Py.int tok = Some (Z.of_nat p)) tokens
          (map (fun i => Z.to_nat (i + 1)) indices).
Proof.
  intros Hr H. induction H as [|tok i l l' Hi _ IH]; simpl; constructor.
  - inversion Hr; subst. rewrite Hi. f_equal. lia.
  - apply IH. now inversion Hr.
Qed.

(** X9. [reorder] returns a list other than the one it was given only
    when the words of the answer are integers that form a permutation
    [P] of [1 .. N]; what it returns is then the tokens taken in the
    order of [P].  Anything else leaves the order as it is. *)
Theorem reorder_changes_only_by_permutation
        (items out : list str) (raw : str) (rest : list str)
        (w w' : world) :
  stdin w = raw :: rest ->
  reorder items w = Ok out w' ->
  out <> items ->
  exists P,
    Forall2 (fun tok p => Py.int tok = Some (Z.of_nat p))
            (Py.split_ws raw) P /\
    Permutation P (seq 1 (List.length items)) /\
    out = map (fun p => nth (p - 1) items []) P.
Proof.
  intros Hin Hrun Hne. rewrite (@reorder_run _ _ _ _ Hin) in Hrun.
  injection Hrun as Hout _. subst out.
  unfold reorder_value in *.
  destruct (Py.strip raw) as [|c r] eqn:Es; [congruence|].
  destruct (try_indices items (c :: r)) as [indices|] eqn:T; [|congruence].
  rewrite <- Es in T. apply try_indices_some in T. destruct T as [Hp Hperm].
  rewrite split_ws_strip in Hp. apply parse_indices_some in Hp.
  pose proof (@permutation_in_range _ _ Hperm) as Hr.
  exists (map (fun i => Z.to_nat (i + 1)) indices). split; [|split].
  - apply zero_based_tokens; [|exact Hp].
    eapply Forall_impl; [|exact Hr]. cbv beta. intros; lia.
  - apply (Permutation_map (fun i => Z.to_nat (i + 1))) in Hperm.
    unfold Py.range in Hperm. rewrite map_map in Hperm.
    rewrite <- seq_shift.
    rewrite (map_ext S (fun x => Z.to_nat (Z.of_nat x + 1)));
      [exact Hperm|]. intro k. lia.
  - rewrite map_map. apply map_ext_in. intros i Hi.
    unfold sel. f_equal. rewrite Forall_forall in Hr.
    specialize (Hr _ Hi). lia.
Qed.

Lemma nth_one_based_id (items : list str) :
  map (fun p => nth (p - 1) items []) (seq 1 (List.length items)) = items.
Proof.
  rewrite <- seq_shift, map_map.
  transitivity (map (fun k => nth k items []) (seq 0 (List.length items)));
    [|apply nth_seq_id].
  apply map_ext. intro k. f_equal. lia.
Qed.

(** X11. Answering with the numbers [1 2 ... N] in their order, written
    in decimal and separated by single spaces, returns the tokens as
    they were, and no message is written.  [N] is a number [int]
    converts: its decimal writing has no more than 4300 digits. *)
Theorem reorder_identity_response
        (items : list str) (rest : list str) (w : world) :
  (List.length (Py.str_of_nat (List.length items))
   <= Py.int_max_str_digits)%nat ->
  stdin w
  = Py.join (lit " ") (map Py.str_of_nat (seq 1 (List.length items)))
      :: rest ->
  reorder items w
  = Ok items (World rest (stdout w ++ reorder_banner items) (files w)).
Proof.
  intros Hl Hin. rewrite (@reorder_run _ _ _ _ Hin).
  assert (Hall : Forall (fun p => (List.length (Py.str_of_nat p)
                                   <= Py.int_max_str_digits)%nat)
                        (seq 1 (List.length items))).
  { apply Forall_forall. intros p Hp. apply in_seq in Hp.
    etransitivity; [|exact Hl]. apply str_of_nat_length_mono. lia. }
  destruct (@reorder_value_of_permutation items
              (Py.join (lit " ")
                 (map Py.str_of_nat (seq 1 (List.length items))))
              (seq 1 (List.length items))
              (decimal_response_tokens Hall) (Permutation_refl _))
    as [V S].
  unfold after_reorder. rewrite V, S, nth_one_based_id.
  now rewrite app_nil_r.
Qed.

(** X12. Two calls of [reorder] compose: answering [P] and then [Q],
    both permutations of [1 .. N], gives at place [i] the token that
    was at place [P[Q[i]-1]] of the first list. *)
Theorem reorder_twice
        (items : list str) (raw1 raw2 : str) (P Q : list nat)
        (rest : list str) (w : world) :
  stdin w = raw1 :: raw2 :: rest ->
  Forall2 (fun tok p => Py.int tok = Some (Z.of_nat p)) (Py.split_ws raw1) P ->
  Permutation P (seq 1 (List.length items)) ->
  Forall2 (fun tok q => Py.int tok = Some (Z.of_nat q)) (Py.split_ws raw2) Q ->
  Permutation Q (seq 1 (List.length items)) ->
  exists out1 w1 w2,
    reorder items w = Ok out1 w1 /\
    reorder out1 w1
    = Ok (map (fun q => nth (nth (q - 1) P 0%nat - 1) items []) Q) w2 /\
    stdin w2 = rest.
Proof.
  intros Hin HP PP HQ PQ.
  destruct (@reorder_value_of_permutation items raw1 P HP PP) as [V1 _].
  assert (L : List.length (reorder_value items raw1) = List.length items).
  { apply Permutation_length, reorder_value_perm. }
  assert (LP : List.length P = List.length items).
  { rewrite (Permutation_length PP). apply length_seq. }
  rewrite <- L in PQ.
  destruct (@reorder_value_of_permutation (reorder_value items raw1)
              raw2 Q HQ PQ) as [V2 _].
  assert (Hin1 : stdin (after_reorder items raw1 (raw2 :: rest) w)
                 = raw2 :: rest) by reflexivity.
  exists (reorder_value items raw1),
         (after_reorder items raw1 (raw2 :: rest) w),
         (after_reorder (reorder_value items raw1) raw2 rest
            (after_reorder items raw1 (raw2 :: rest) w)).
  split; [apply (@reorder_run _ _ _ _ Hin)|]. split; [|reflexivity].
  rewrite (@reorder_run _ _ _ _ Hin1). f_equal.
  rewrite V2, V1. apply map_ext_in. intros q Hq.
  assert (Bq : (q - 1 < List.length P)%nat).
  { apply (Permutation_in _ PQ) in Hq. apply in_seq in Hq.
    rewrite L in Hq. lia. }
  rewrite (nth_indep _ [] (nth (0 - 1) items [])) by (now rewrite length_map).
  apply (map_nth (fun p => nth (p - 1) items [])).
Qed.

(** ** More on the parser and the formatter *)

(** X13. Every token the parser returns is non-empty, neither begins
    nor ends with whitespace, and holds neither a comma nor a [#]. *)
Theorem parser_tokens_are_clean (line : str) :
  Forall (fun t => t <> [] /\ trimmed t /\
                   ~ In ","%char t /\ ~ In "#"%char t)
         (parse_directive line).
Proof. exact (parse_directive_clean line). Qed.

(** X14. Every token the parser returns stands, as it is, in the text
    of the line before its first [#]: the parser makes up no text and
    takes nothing from a comment. *)
Theorem parser_tokens_come_from_the_text (line token : str) :
  In token (parse_directive line) ->
  exists l r, Py.split1_head "#" line = l ++ token ++ r.
Proof.
  destruct (split1_head_spec "#" line) as (comment & E & Hn & Hc).
  intro H. rewrite E in H.
  rewrite parse_directive_comment in H by assumption.
  now apply parse_directive_infix.
Qed.

(** X15. The formatter loses nothing: two lines it makes for directive
    names and token lists as the parser returns them are equal only when
    the names are equal and the token lists are equal, order
    included. *)
Theorem format_directive_injective
        (name1 name2 : str) (items1 items2 : list str) :
  is_directive_name name1 -> is_directive_name name2 ->
  Forall clean_token items1 -> Forall clean_token items2 ->
  format_directive name1 items1 = format_directive name2 items2 ->
  name1 = name2 /\ items1 = items2.
Proof.
  intros K1 K2 C1 C2 E.
  destruct (format_directive_detected items1 K1) as [_ M1].
  destruct (format_directive_detected items2 K2) as [_ M2].
  destruct (directive_name_shape K1) as (N1 & S1 & H1 & _).
  destruct (directive_name_shape K2) as (N2 & S2 & H2 & _).
  split.
  - rewrite E in M1. congruence.
  - rewrite <- (parse_format N1 S1 H1 C1), <- (parse_format N2 S2 H2 C2).
    now rewrite E.
Qed.

(** ** The further properties at work *)

Lemma process_file_end_of_input_witness :
  exists w',
    process_file (lit "refind.conf")
      (session (lit "refind.conf") (lit "scanfor internal,hdbios" ++ [LF]) [])
    = Raise EOFError w' /\
    files w'
    = files (session (lit "refind.conf")
                     (lit "scanfor internal,hdbios" ++ [LF]) []).
Proof.
  apply (@process_file_end_of_input (lit "refind.conf")
           (lit "scanfor internal,hdbios" ++ [LF])
           (session (lit "refind.conf")
                    (lit "scanfor internal,hdbios" ++ [LF]) [])).
  - reflexivity.
  - apply le_n.
Defined.

Lemma process_file_touches_one_file_witness :
  exists w',
    process_file (lit "refind.conf")
      (session (lit "refind.conf") (lit "scanfor internal,hdbios" ++ [LF])
               [lit "2 1"])
    = Ok tt w' /\
    forall p, p <> lit "refind.conf" ->
      files w' p
      = files (session (lit "refind.conf")
                       (lit "scanfor internal,hdbios" ++ [LF])
                       [lit "2 1"]) p.
Proof.
  apply (@process_file_touches_one_file (lit "refind.conf")
           (lit "scanfor internal,hdbios" ++ [LF])
           (session (lit "refind.conf")
                    (lit "scanfor internal,hdbios" ++ [LF]) [lit "2 1"])).
  - reflexivity.
  - apply le_n.
Defined.

Lemma process_file_reads_one_line_per_directive_witness :
  exists w',
    process_file (lit "refind.conf")
      (session (lit "refind.conf")
               (lit "timeout 5" ++ [LF] ++ lit "scanfor internal,hdbios"
                ++ [LF])
               [lit "2 1"; lit "left over"])
    = Ok tt w' /\
    stdin w' = [lit "left over"].
Proof.
  apply (@process_file_reads_one_line_per_directive (lit "refind.conf")
           (lit "timeout 5" ++ [LF] ++ lit "scanfor internal,hdbios" ++ [LF])
           (session (lit "refind.conf")
                    (lit "timeout 5" ++ [LF] ++ lit "scanfor internal,hdbios"
                     ++ [LF])
                    [lit "2 1"; lit "left over"])).
  - reflexivity.
  - apply le_S, le_n.
Defined.

Lemma process_file_without_directives_witness :
  exists w',
    process_file (lit "refind.conf")
      (session (lit "refind.conf")
               (lit "timeout 5" ++ [LF] ++ lit "showtools" ++ [LF])
               [lit "unread"])
    = Ok tt w' /\
    files w' (lit "refind.conf")
    = Some (universal_newlines
              (lit "timeout 5" ++ [LF] ++ lit "showtools" ++ [LF])) /\
    stdin w' = [lit "unread"] /\ stdout w' = [] /\
    (~ In CR (lit "timeout 5" ++ [LF] ++ lit "showtools" ++ [LF]) ->
     files w' (lit "refind.conf")
     = Some (lit "timeout 5" ++ [LF] ++ lit "showtools" ++ [LF])).
Proof.
  apply (@process_file_without_directives (lit "refind.conf")
           (lit "timeout 5" ++ [LF] ++ lit "showtools" ++ [LF])
           (session (lit "refind.conf")
                    (lit "timeout 5" ++ [LF] ++ lit "showtools" ++ [LF])
                    [lit "unread"])); reflexivity.
Defined.

Lemma process_file_keeps_lines_witness :
  exists out w1 w',
    process_lines
      (lines_from []
         (universal_newlines
            (lit "timeout 5" ++ [CR; LF] ++ lit "#scanfor internal,hdbios")))
      (session (lit "refind.conf")
               (lit "timeout 5" ++ [CR; LF] ++ lit "#scanfor internal,hdbios")
               [lit "2 1"])
    = Ok out w1 /\
    process_file (lit "refind.conf")
      (session (lit "refind.conf")
               (lit "timeout 5" ++ [CR; LF] ++ lit "#scanfor internal,hdbios")
               [lit "2 1"])
    = Ok tt w' /\
    files w' (lit "refind.conf") = Some (List.concat out) /\
    Forall2 line_update
            [lit "timeout 5" ++ [LF]; lit "#scanfor internal,hdbios"] out /\
    List.length out = 2%nat /\
    lines_from [] (universal_newlines (List.concat out)) = out.
Proof.
  apply (@process_file_keeps_lines (lit "refind.conf")
           (lit "timeout 5" ++ [CR; LF] ++ lit "#scanfor internal,hdbios")
           (session (lit "refind.conf")
                    (lit "timeout 5" ++ [CR; LF]
                     ++ lit "#scanfor internal,hdbios")
                    [lit "2 1"])).
  - reflexivity.
  - apply le_n.
Defined.

Lemma process_line_preserves_directive_witness :
  exists out tokens w',
    process_line (lit "#ScanFor internal, hdbios # order" ++ [LF])
                 (console [lit "2 1"])
    = Ok out w' /\
    reorder [lit "internal"; lit "hdbios"] (console [lit "2 1"])
    = Ok tokens w' /\
    directive_pattern_match (uncomment out) = Some (lit "ScanFor") /\
    parse_directive (uncomment out) = tokens /\
    Permutation tokens [lit "internal"; lit "hdbios"].
Proof.
  apply (@process_line_preserves_directive
           (lit "#ScanFor internal, hdbios # order" ++ [LF])
           (lit "ScanFor") (lit "internal") [lit "hdbios"]
           (lit "2 1") [] (console [lit "2 1"])); reflexivity.
Defined.

Lemma second_pass_keeps_rewritten_line_witness :
  exists out w1 w2,
    process_line (lit "#ScanFor internal, hdbios # order" ++ [LF])
                 (console [lit "2 1"; []])
    = Ok out w1 /\
    process_line out w1 = Ok out w2 /\
    stdin w2 = [].
Proof.
  apply (@second_pass_keeps_rewritten_line
           (lit "#ScanFor internal, hdbios # order" ++ [LF])
           (lit "ScanFor") (lit "internal") [lit "hdbios"]
           (lit "2 1") [] [] (console [lit "2 1"; []])); reflexivity.
Defined.

Lemma reorder_changes_only_by_permutation_witness :
  exists P,
    Forall2 (fun tok p => Py.int tok = Some (Z.of_nat p))
            (Py.split_ws (lit "2 1")) P /\
    Permutation P (seq 1 2) /\
    [lit "hdbios"; lit "internal"]
    = map (fun p => nth (p - 1) [lit "internal"; lit "hdbios"] []) P.
Proof.
  apply (@reorder_changes_only_by_permutation
           [lit "internal"; lit "hdbios"] [lit "hdbios"; lit "internal"]
           (lit "2 1") [] (console [lit "2 1"])
           (World [] (reorder_banner [lit "internal"; lit "hdbios"])
                  (fun _ => None))).
  - reflexivity.
  - reflexivity.
  - discriminate.
Defined.

Lemma reorder_identity_response_witness :
  reorder [lit "internal"; lit "hdbios"; lit "biosexternal"]
          (console [lit "1 2 3"])
  = Ok [lit "internal"; lit "hdbios"; lit "biosexternal"]
       (World [] (reorder_banner
                    [lit "internal"; lit "hdbios"; lit "biosexternal"])
              (fun _ => None)).
Proof.
  apply (@reorder_identity_response
           [lit "internal"; lit "hdbios"; lit "biosexternal"] []
           (console [lit "1 2 3"])).
  - apply Nat.leb_le. reflexivity.
  - reflexivity.
Defined.

Lemma reorder_twice_witness :
  exists out1 w1 w2,
    reorder [lit "a"; lit "b"; lit "c"] (console [lit "2 3 1"; lit "3 1 2"])
    = Ok out1 w1 /\
    reorder out1 w1 = Ok [lit "a"; lit "b"; lit "c"] w2 /\
    stdin w2 = [].
Proof.
  apply (@reorder_twice [lit "a"; lit "b"; lit "c"]
           (lit "2 3 1") (lit "3 1 2") [2; 3; 1]%nat [3; 1; 2]%nat []
           (console [lit "2 3 1"; lit "3 1 2"])).
  - reflexivity.
  - repeat constructor.
  - apply Permutation_sym, (Permutation_cons_app [2; 3]%nat [] 1%nat).
    reflexivity.
  - repeat constructor.
  - apply (Permutation_cons_app [1; 2]%nat [] 3%nat). reflexivity.
Defined.

Lemma parser_tokens_come_from_the_text_witness :
  exists l r,
    Py.split1_head "#" (lit "scanfor internal, hdbios # order")
    = l ++ lit "hdbios" ++ r.
Proof.
  apply (@parser_tokens_come_from_the_text
           (lit "scanfor internal, hdbios # order") (lit "hdbios")).
  right. left. reflexivity.
Defined.

Lemma format_directive_injective_witness :
  lit "scanfor" = lit "scanfor" /\
  [lit "internal"; lit "hdbios"] = [lit "internal"; lit "hdbios"].
Proof.
  apply (@format_directive_injective (lit "scanfor") (lit "scanfor")
           [lit "internal"; lit "hdbios"] [lit "internal"; lit "hdbios"]).
  - left. reflexivity.
  - left. reflexivity.
  - exact (parse_directive_clean (lit "scanfor internal,hdbios")).
  - exact (parse_directive_clean (lit "scanfor internal,hdbios")).
  - reflexivity.
Defined.

(** ** Answers and lines *)

Lemma process_lines_answers (lines : list str) (w : world) :
  (count_rewritten lines <= List.length (stdin w))%nat ->
  exists out w',
    process_lines lines w = Ok out w' /\
    forall (i : nat) (line name : str),
      nth_error lines i = Some line ->
      directive_pattern_match (uncomment line) = Some name ->
      parse_directive (uncomment line) <> [] ->
      exists raw,
        nth_error (stdin w) (count_rewritten (firstn i lines)) = Some raw /\
        nth_error out i
        = Some (format_directive name
                  (reorder_value (parse_directive (uncomment line)) raw)).
Proof.
  revert w. induction lines as [|l lines IH]; intros w Hn.
  - exists [], w. split; [reflexivity|]. intros [|i] ? ? H; discriminate.
  - rewrite count_rewritten_cons in Hn. unfold process_lines in *.
    destruct (rewritten l) eqn:R.
    + destruct (stdin w) as [|raw0 rest] eqn:Hin; [simpl in Hn; lia|].
      destruct (@rewritten_true _ R) as (name0 & D0 & Hne0).
      pose proof (@process_line_rewritten _ _ _ _ _ _ D0 eq_refl Hne0 Hin)
        as Hp.
      destruct (IH (after_reorder (parse_directive (uncomment l)) raw0
                                  rest w)) as (out & w' & E & A).
      { simpl in *. lia. }
      eexists _, w'. split; [eapply map_io_cons_ok; [exact Hp | exact E]|].
      intros [|i] line name Hl D Hne.
      * simpl in Hl. inversion Hl; subst line.
        exists raw0. split; [reflexivity|]. simpl. congruence.
      * simpl in Hl. destruct (A i line name Hl D Hne) as (raw & Hr & Ho).
        exists raw. split; [|exact Ho].
        cbn [firstn]. rewrite count_rewritten_cons, R. exact Hr.
    + destruct (IH w Hn) as (out & w' & E & A).
      eexists _, w'.
      split; [eapply map_io_cons_ok;
              [exact (@process_line_kept _ w R) | exact E]|].
      intros [|i] line name Hl D Hne.
      * simpl in Hl. inversion Hl; subst line. exfalso.
        unfold rewritten, detected in R. rewrite D in R.
        destruct (parse_directive (uncomment l)); [congruence | discriminate].
      * simpl in Hl. destruct (A i line name Hl D Hne) as (raw & Hr & Ho).
        exists raw. split; [|exact Ho].
        cbn [firstn]. rewrite count_rewritten_cons, R. exact Hr.
Qed.

(** X16. The answers go to the directive lines in the order of the
    file: the line at place [i], when it is rewritten, is made with the
    answer whose number is the count of the rewritten lines before
    it. *)
Theorem answers_follow_file_order (path text : str) (w : world) :
  files w path = Some text ->
  (count_rewritten (lines_from [] (universal_newlines text))
   <= List.length (stdin w))%nat ->
  exists out w',
    process_file path w = Ok tt w' /\
    files w' path = Some (List.concat out) /\
    forall (i : nat) (line name : str),
      nth_error (lines_from [] (universal_newlines text)) i = Some line ->
      directive_pattern_match (uncomment line) = Some name ->
      parse_directive (uncomment line) <> [] ->
      exists raw,
        nth_error (stdin w)
                  (count_rewritten
                     (firstn i (lines_from [] (universal_newlines text))))
        = Some raw /\
        nth_error out i
        = Some (format_directive name
                  (reorder_value (parse_directive (uncomment line)) raw)).
Proof.
  intros Hf Hn. unfold process_file, bind, readlines. rewrite Hf.
  destruct (@process_lines_answers _ w Hn) as (out & w' & E & A).
  rewrite E. unfold writelines. eexists out, _.
  split; [reflexivity|]. cbn [files]. unfold path_eqb.
  rewrite str_eqb_refl. split; [reflexivity | exact A].
Qed.

(** ** The first word of a directive line *)

Lemma split1_head_prefix (a b : str) :
  ~ In "#"%char a ->
  Py.split1_head "#" (a ++ b) = a ++ Py.split1_head "#" b.
Proof.
  intro H. unfold Py.split1_head.
  induction a as [|c a IH]; [reflexivity|]. cbn [app Py.take_while].
  destruct (chr_eqb c "#") eqn:E.
  - apply chr_eqb_true in E. exfalso. apply H. now left.
  - cbn [negb]. rewrite IH; [reflexivity|]. intro K. apply H. now right.
Qed.




Lemma answers_follow_file_order_witness :
  exists out w',
    process_file (lit "refind.conf")
      (session (lit "refind.conf")
               (lit "scanfor a,b" ++ [LF] ++ lit "showtools x,y" ++ [LF])
               [lit "2 1"; []])
    = Ok tt w' /\
    files w' (lit "refind.conf") = Some (List.concat out) /\
    forall (i : nat) (line name : str),
      nth_error [lit "scanfor a,b" ++ [LF]; lit "showtools x,y" ++ [LF]] i
      = Some line ->
      directive_pattern_match (uncomment line) = Some name ->
      parse_directive (uncomment line) <> [] ->
      exists raw,
        nth_error [lit "2 1"; []]
                  (count_rewritten
                     (firstn i [lit "scanfor a,b" ++ [LF];
                                lit "showtools x,y" ++ [LF]]))
        = Some raw /\
        nth_error out i
        = Some (format_directive name
                  (reorder_value (parse_directive (uncomment line)) raw)).
Proof.
  apply (@answers_follow_file_order (lit "refind.conf")
           (lit "scanfor a,b" ++ [LF] ++ lit "showtools x,y" ++ [LF])
           (session (lit "refind.conf")
                    (lit "scanfor a,b" ++ [LF] ++ lit "showtools x,y" ++ [LF])
                    [lit "2 1"; []])).
  - reflexivity.
  - apply le_n.
Defined.


(** The limit of [int] at work: an answer whose first word is [2] with
    4300 zeros before it is no permutation for [reorder], which writes
    the message and keeps the order. *)
Lemma oversize_literal_is_refused :
  reorder [lit "a"; lit "b"]
          (console [repeat "0"%char 4300 ++ lit "2 1"])
  = Ok [lit "a"; lit "b"]
       (World [] (reorder_banner [lit "a"; lit "b"]
                  ++ [invalid_message ++ [LF]])
              (fun _ => None)).
Proof. vm_compute. reflexivity. Qed.
